(** * FuzzyDeduplicatorApp: the duplicate-detection core of [app.py]

    A shallow embedding of [calculate_similarity], [get_comparison_groups],
    [calculate_total_comparisons], [find_duplicates] and the annotation loop
    of [main], followed by the properties of the specification that the
    code does (or does not) satisfy.

    Conventions of the embedding:
    - a Python [str] is a [string] (characters are the code points 0..255);
    - a data-frame is the list of its rows, a row the list of its cells;
    - a Python [set] of row indices is a [gset nat]; the [defaultdict] of
      blocks is an association list in insertion order (Python dictionaries
      iterate in insertion order, and the emission order of the clusters
      depends on it);
    - the floats of the program are exact rationals ([Q]): a similarity is
      [score / 100] for an integer score, the threshold is the rational the
      caller chose;
    - the Streamlit widgets (progress bar, status text) only observe the
      state and are left out of [find_duplicates]; the comparison counter
      they display is kept, and [find_duplicates_logged] is the same
      function with the calls on the widgets recorded. *)

From Stdlib Require Import ZArith QArith Qround Qminmax Ascii String DecimalString Lia Lqa.
From stdpp Require Import base gmap sets list strings sorting.

#[local] Set Warnings "-clear-no-such-hyp".


(** ** Python strings *)

Module Py.

(** [str.lower()] on the code points 0..255: A-Z and the Latin-1 capitals
    (0xC0..0xDE except the multiplication sign 0xD7) move up by 32. On
    these code points [str.lower()] works character by character; beyond
    them it does not (a final sigma, U+0130), and such texts are outside
    the embedding. *)
Definition lower_char (c : ascii) : ascii :=
  let n := N_of_ascii c in
  if ((65 <=? n) && (n <=? 90) || (192 <=? n) && (n <=? 222) && negb (n =? 215))%N
  then ascii_of_N (n + 32) else c.

Fixpoint lower (s : string) : string :=
  match s with
  | EmptyString => EmptyString
  | String c s' => String (lower_char c) (lower s')
  end.

(** [text[:k]]: a negative [k] counts from the end, and both ends are
    clamped to the string. *)
Definition slice_to (text : string) (k : Z) : string :=
  let n := Z.of_nat (String.length text) in
  let stop := if (k <? 0)%Z then Z.max 0 (n + k) else Z.min k n in
  substring 0 (Z.to_nat stop) text.

(** [sep.join(parts)] *)
Definition join (sep : string) (parts : list string) : string :=
  String.concat sep parts.

(** [str(n)] for an integer. *)
Definition str_int (n : Z) : string := NilZero.string_of_int (Z.to_int n).

(** [enumerate(l)] *)
Definition enumerate {A} (l : list A) : list (nat * A) :=
  combine (seq 0 (length l)) l.

(** [sorted(s)] for a set of integers, and for a set of strings (ordered
    by code points). The elements of a set are distinct, so the result
    does not depend on the sorting algorithm. *)
Definition sorted_nat (s : gset nat) : list nat := merge_sort (≤) (elements s).
Definition sorted_str (s : gset string) : list string :=
  merge_sort String.le (elements s).

(** [round(q)] to an integer: half-way cases go to the even neighbour. *)
Definition round (q : Q) : Z :=
  let fl := Qfloor q in
  match Qcompare (q - inject_Z fl) (1 # 2) with
  | Lt => fl
  | Gt => (fl + 1)%Z
  | Eq => if Z.even fl then fl else (fl + 1)%Z
  end.

End Py.

(** ** Records *)

(** A cell of the table. Missing values ([NaN], [None], [NaT]) are [NaN];
    cells of other dtypes are represented by their [str] image. *)
Inductive cell : Type :=
  | NaN
  | Str (s : string)
  | Int (n : Z).

Definition notna (val : cell) : bool :=
  match val with NaN => false | _ => true end.

Definition str (val : cell) : string :=
  match val with
  | NaN => "nan"
  | Str s => s
  | Int n => Py.str_int n
  end.

Abbreviation row := (list cell).
Abbreviation dataframe := (list (list cell)).

(** [' '.join(str(val) for val in row if pd.notna(val))] *)
Definition comparison_text (r : row) : string :=
  Py.join " " (map str (List.filter notna r)).

(** [df.iloc[idx]]. Every index the grouper uses comes from [enumerate]
    over the rows, so the default of [nth] is never reached
    ([groups_in_range] below). *)
Definition iloc (df : dataframe) (idx : nat) : row := nth idx df [].

(** ** The scorer: [thefuzz.fuzz.token_set_ratio]

    [thefuzz] is a library the program imports; its scorer is embedded here
    after the library's implementation ([thefuzz.fuzz], [thefuzz.utils] and
    the [rapidfuzz] functions they delegate to), called with the default
    arguments [force_ascii=True, full_process=True] as [app.py] does.
    The library computes [100 - 100 * dist / lensum] in floating point
    before rounding; here the quotient is an exact rational, which rounds
    to the same integer for texts of any realistic length. *)

Module Fuzz.

(** [str.isspace()] on the code points 0..255. *)
Definition isspace (c : ascii) : bool :=
  let n := N_of_ascii c in
  ((9 <=? n) && (n <=? 13) || (28 <=? n) && (n <=? 32)
   || (n =? 133) || (n =? 160))%N.

(** [str.isalnum()] on ASCII text: letters and digits, the characters that
    [default_process] keeps. *)
Definition isalnum (c : ascii) : bool :=
  let n := N_of_ascii c in
  ((48 <=? n) && (n <=? 57) || (65 <=? n) && (n <=? 90)
   || (97 <=? n) && (n <=? 122))%N.

(** [utils.ascii_only]: the code points 128..255 are deleted. *)
Fixpoint ascii_only (s : string) : string :=
  match s with
  | EmptyString => EmptyString
  | String c s' =>
      if (N_of_ascii c <? 128)%N then String c (ascii_only s')
      else ascii_only s'
  end.

(** The first step of [default_process]: every character that is not
    alphanumeric becomes a space. *)
Fixpoint replace_non_alnum (s : string) : string :=
  match s with
  | EmptyString => EmptyString
  | String c s' =>
      String (if isalnum c then c else " "%char) (replace_non_alnum s')
  end.

Fixpoint lstrip (s : string) : string :=
  match s with
  | EmptyString => EmptyString
  | String c s' => if isspace c then lstrip s' else s
  end.

Fixpoint rstrip (s : string) : string :=
  match s with
  | EmptyString => EmptyString
  | String c s' =>
      match rstrip s' with
      | EmptyString => if isspace c then EmptyString else String c EmptyString
      | r => String c r
      end
  end.

Definition strip (s : string) : string := rstrip (lstrip s).

(** [rapidfuzz.utils.default_process]: non-alphanumeric characters become
    spaces, the ends are trimmed, the result is lower-cased. *)
Definition default_process (sentence : string) : string :=
  Py.lower (strip (replace_non_alnum sentence)).

(** [utils.full_process(s, force_ascii=True)] *)
Definition full_process (s : string) : string :=
  default_process (ascii_only s).

(** [s.split()]: the maximal runs of non-whitespace characters. *)
Fixpoint split (s : string) : list string :=
  match s with
  | EmptyString => []
  | String c rest =>
      if isspace c then split rest
      else
        match rest with
        | EmptyString => [String c EmptyString]
        | String c' _ =>
            if isspace c' then String c EmptyString :: split rest
            else
              match split rest with
              | t :: ts => String c t :: ts
              | [] => [String c EmptyString]
              end
        end
  end.

(** Length of a longest common subsequence. *)
Fixpoint lcs (a : list ascii) : list ascii → nat :=
  match a with
  | [] => λ _, 0
  | x :: a' =>
      fix lcs_row (b : list ascii) : nat :=
        match b with
        | [] => 0
        | y :: b' =>
            if Ascii.eqb x y then S (lcs a' b')
            else Nat.max (lcs a' b) (lcs_row b')
        end
  end.

(** [rapidfuzz.distance.Indel.distance]: the number of insertions and
    deletions that turn [s1] into [s2]. *)
Definition indel_distance (s1 s2 : string) : nat :=
  String.length s1 + String.length s2
  - 2 * lcs (list_ascii_of_string s1) (list_ascii_of_string s2).

(** [_norm_distance(dist, lensum, score_cutoff=0)] *)
Definition norm_distance (dist lensum : nat) : Q :=
  if Nat.eqb lensum 0 then 100
  else 100 - (Z.of_nat (100 * dist) # Pos.of_nat lensum).

(** A Python truth value used as a number: [(sect_len != 0)]. *)
Definition nonzero (n : nat) : nat := if Nat.eqb n 0 then 0 else 1.

(** [rapidfuzz.fuzz.token_set_ratio(s1, s2)] with the default
    [score_cutoff] (0, so that no score is cut off). *)
Definition rapidfuzz_token_set_ratio (s1 s2 : string) : Q :=
  let tokens_a : gset string := list_to_set (split s1) in
  let tokens_b : gset string := list_to_set (split s2) in
  if decide (tokens_a = ∅ ∨ tokens_b = ∅) then 0
  else
    let intersect := tokens_b ∩ tokens_a in
    let diff_ab := tokens_a ∖ tokens_b in
    let diff_ba := tokens_b ∖ tokens_a in
    if decide (intersect ≠ ∅ ∧ (diff_ab = ∅ ∨ diff_ba = ∅)) then 100
    else
      let diff_ab_joined := Py.join " " (Py.sorted_str diff_ab) in
      let diff_ba_joined := Py.join " " (Py.sorted_str diff_ba) in
      let ab_len := String.length diff_ab_joined in
      let ba_len := String.length diff_ba_joined in
      let sect_len := String.length (Py.join " " (elements intersect)) in
      let sect_ab_len := sect_len + nonzero sect_len + ab_len in
      let sect_ba_len := sect_len + nonzero sect_len + ba_len in
      let dist := indel_distance diff_ab_joined diff_ba_joined in
      let result := norm_distance dist (sect_ab_len + sect_ba_len) in
      if Nat.eqb sect_len 0 then result
      else
        let sect_ab_dist := nonzero sect_len + ab_len in
        let sect_ab_ratio := norm_distance sect_ab_dist (sect_len + sect_ab_len) in
        let sect_ba_dist := nonzero sect_len + ba_len in
        let sect_ba_ratio := norm_distance sect_ba_dist (sect_len + sect_ba_len) in
        Qmax (Qmax result sect_ab_ratio) sect_ba_ratio.

(** [thefuzz.fuzz.token_set_ratio(s1, s2)]: both strings are processed,
    scored, and the score is rounded to an integer. *)
Definition token_set_ratio (s1 s2 : string) : Z :=
  let s1 := full_process s1 in
  let s2 := full_process s2 in
  Py.round (rapidfuzz_token_set_ratio s1 s2).



End Fuzz.

(** ** Similarity Scorer *)

Definition calculate_similarity (row1 row2 : row) : Q :=
  let str1 := comparison_text row1 in
  let str2 := comparison_text row2 in
  Fuzz.token_set_ratio str1 str2 # 100.

(** ** Blocking Engine *)

(** [groups[key].append(idx)] on a [defaultdict(list)]: a new key is added
    at the end. *)
Fixpoint groups_append (groups : list (string * list nat)) (key : string)
    (idx : nat) : list (string * list nat) :=
  match groups with
  | [] => [(key, [idx])]
  | (k, v) :: rest =>
      if String.eqb k key then (k, v ++ [idx]) :: rest
      else (k, v) :: groups_append rest key idx
  end.

(** The body of the loop over [enumerate(concatenated)]. *)
Definition group_step (leading_chars : Z) (groups : list (string * list nat))
    (it : nat * string) : list (string * list nat) :=
  let '(idx, text) := it in
  if (leading_chars <=? Z.of_nat (String.length text))%Z then
    let key := Py.lower (Py.slice_to text leading_chars) in
    groups_append groups key idx
  else groups.

Definition get_comparison_groups (df : dataframe) (leading_chars : Z)
    : list (string * list nat) :=
  let concatenated := map comparison_text df in
  let groups := fold_left (group_step leading_chars) (Py.enumerate concatenated) [] in
  List.filter (λ kv, 1 <? length (snd kv)) groups.

(** Python's [(n * (n - 1)) // 2]; for [n = 0] both sides are 0. *)
Definition calculate_total_comparisons (groups : list (string * list nat)) : nat :=
  fold_left (λ total kv, let n := length (snd kv) in total + (n * (n - 1)) / 2)
            groups 0.

(** ** Duplicate Grouper *)

(** The variables of [find_duplicates] that live across the loops. *)
Record state : Type := State {
  duplicate_groups : list (gset nat);
  processed : gset nat;
  comparison_count : nat
}.

(** The body of the loop over [group_indices[i + 1:]]; the inner state is
    [(current_group, processed, comparison_count)]. *)
Definition compare_step (df : dataframe) (threshold : Q) (row_i : row)
    (st : gset nat * gset nat * nat) (idx2 : nat) : gset nat * gset nat * nat :=
  let '(current_group, processed, comparison_count) := st in
  if decide (idx2 ∈ processed) then st
  else
    let row_j := iloc df idx2 in
    let similarity := calculate_similarity row_i row_j in
    let comparison_count := S comparison_count in
    if Qle_bool threshold similarity
    then ({[idx2]} ∪ current_group, {[idx2]} ∪ processed, comparison_count)
    else (current_group, processed, comparison_count).

(** The body of the loop over [enumerate(group_indices)]. *)
Definition anchor_step (df : dataframe) (threshold : Q) (group_indices : list nat)
    (st : state) (it : nat * nat) : state :=
  let '(i, idx1) := it in
  if decide (idx1 ∈ processed st) then st
  else
    let row_i := iloc df idx1 in
    let '(current_group, processed', count') :=
      fold_left (compare_step df threshold row_i) (drop (S i) group_indices)
                ({[idx1]}, processed st, comparison_count st) in
    {| duplicate_groups :=
         if 1 <? size current_group
         then duplicate_groups st ++ [current_group]
         else duplicate_groups st;
       processed := {[idx1]} ∪ processed';
       comparison_count := count' |}.

(** The body of the loop over [groups.values()]. *)
Definition process_group (df : dataframe) (threshold : Q) (st : state)
    (group_indices : list nat) : state :=
  fold_left (anchor_step df threshold group_indices) (Py.enumerate group_indices) st.

(** [find_duplicates] up to its [return]: the final values of its
    variables. *)
Definition find_duplicates_run (df : dataframe) (threshold : Q) (leading_chars : Z)
    : state :=
  let groups := get_comparison_groups df leading_chars in
  fold_left (process_group df threshold) (map snd groups)
            {| duplicate_groups := []; processed := ∅; comparison_count := 0 |}.

Definition find_duplicates (df : dataframe) (threshold : Q) (leading_chars : Z)
    : list (gset nat) :=
  duplicate_groups (find_duplicates_run df threshold leading_chars).

(** [n_duplicates = sum(len(group) for group in duplicate_groups)] *)
Definition n_duplicates (duplicate_groups : list (gset nat)) : nat :=
  sum_list (map size duplicate_groups).

(** ** Result Annotator (the loop of [main]) *)

(** The two new columns, keyed by row label. *)
Definition annotation : Type := gmap nat Z * gmap nat string.

Definition annotate_group (ann : annotation) (it : nat * gset nat) : annotation :=
  let '(group_idx, group) := it in
  let group_list := Py.sorted_nat group in
  let rows_str := Py.join ", " (map (λ idx, str (Int (Z.of_nat idx + 1))) group_list) in
  fold_left (λ (a : annotation) idx,
               (<[idx := (Z.of_nat group_idx + 1)%Z]> (fst a), <[idx := rows_str]> (snd a)))
            group_list ann.

(** [df['duplicate_group'] = -1; df['duplicate_rows'] = ''] on a frame of
    [n] rows. *)
Definition fresh_columns (n : nat) : annotation :=
  (gset_to_gmap (-1)%Z (set_seq 0 n), gset_to_gmap "" (set_seq 0 n)).

(** The new columns, then the loop over [enumerate(duplicate_groups)]. *)
Definition annotate (n : nat) (duplicate_groups : list (gset nat)) : annotation :=
  fold_left annotate_group (Py.enumerate duplicate_groups) (fresh_columns n).

Definition annotate_table (df : dataframe) (threshold : Q) (leading_chars : Z)
    : annotation :=
  annotate (length df) (find_duplicates df threshold leading_chars).

(** ** The comparison statistics of [main]

    The numbers [main] writes once a file is loaded, before the button. *)

(** [(len(df) * (len(df) - 1)) // 2]; for an empty table both sides are 0. *)
Definition total_possible (df : dataframe) : nat :=
  (length df * (length df - 1)) / 2.

(** [total_comparisons/total_possible*100]; [None] stands for Python's
    [ZeroDivisionError]. *)
Definition reduction_percent (total_comparisons total_possible : nat) : option Q :=
  if Nat.eqb total_possible 0 then None
  else Some ((Z.of_nat total_comparisons # Pos.of_nat total_possible) * 100)%Q.

(** The two [st.write] lines: the number of comparisons, the number of
    possible comparisons and the percentage. The result is [None] when the
    second line raises (the first one is written by then). *)
Definition comparison_statistics (df : dataframe) (leading_chars : Z)
    : option (nat * nat * Q) :=
  let groups := get_comparison_groups df leading_chars in
  let total_comparisons := calculate_total_comparisons groups in
  let total_possible := total_possible df in
  match reduction_percent total_comparisons total_possible with
  | None => None
  | Some percent => Some (total_comparisons, total_possible, percent)
  end.

(** ** The progress reports of [find_duplicates]

    The same loops as above, now with the calls on the progress bar and on
    the status text recorded in a log, and with the division by
    [total_comparisons] allowed to fail. *)

(** A call on a widget: [progress_bar.progress(value)], the status text
    ["Processed ... of ... comparisons..."] with its two numbers, and the
    status text ["Duplicate detection complete!"]. *)
Inductive event : Type :=
  | Progress (value : Q)
  | Status (comparison_count total_comparisons : nat)
  | Complete.

(** The body of [if comparison_count % 100 == 0]; [None] stands for
    [ZeroDivisionError]. *)
Definition report (total_comparisons comparison_count : nat) (log : list event)
    : option (list event) :=
  if Nat.eqb (comparison_count mod 100) 0 then
    if Nat.eqb total_comparisons 0 then None
    else
      let progress :=
        Qmin (Z.of_nat comparison_count # Pos.of_nat total_comparisons) 1 in
      Some (log ++ [Progress progress; Status comparison_count total_comparisons])
  else Some log.

Definition compare_step_logged (df : dataframe) (threshold : Q)
    (total_comparisons : nat) (row_i : row)
    (st : option (gset nat * gset nat * nat * list event)) (idx2 : nat)
    : option (gset nat * gset nat * nat * list event) :=
  match st with
  | None => None
  | Some (current_group, processed, comparison_count, log) =>
      if decide (idx2 ∈ processed) then st
      else
        let row_j := iloc df idx2 in
        let similarity := calculate_similarity row_i row_j in
        let comparison_count := S comparison_count in
        match report total_comparisons comparison_count log with
        | None => None
        | Some log =>
            if Qle_bool threshold similarity
            then Some ({[idx2]} ∪ current_group, {[idx2]} ∪ processed,
                       comparison_count, log)
            else Some (current_group, processed, comparison_count, log)
        end
  end.

Definition anchor_step_logged (df : dataframe) (threshold : Q)
    (total_comparisons : nat) (group_indices : list nat)
    (st : option (state * list event)) (it : nat * nat)
    : option (state * list event) :=
  let '(i, idx1) := it in
  match st with
  | None => None
  | Some (s, log) =>
      if decide (idx1 ∈ processed s) then st
      else
        let row_i := iloc df idx1 in
        match fold_left (compare_step_logged df threshold total_comparisons row_i)
                        (drop (S i) group_indices)
                        (Some ({[idx1]}, processed s, comparison_count s, log)) with
        | None => None
        | Some (current_group, processed', count', log') =>
            Some ({| duplicate_groups :=
                       if 1 <? size current_group
                       then duplicate_groups s ++ [current_group]
                       else duplicate_groups s;
                     processed := {[idx1]} ∪ processed';
                     comparison_count := count' |}, log')
        end
  end.

Definition process_group_logged (df : dataframe) (threshold : Q)
    (total_comparisons : nat) (st : option (state * list event))
    (group_indices : list nat) : option (state * list event) :=
  fold_left (anchor_step_logged df threshold total_comparisons group_indices)
            (Py.enumerate group_indices) st.

(** [find_duplicates] with its widgets: [st.progress(0)] first,
    [progress_bar.progress(1.0)] and the closing status text last. *)
Definition find_duplicates_logged (df : dataframe) (threshold : Q)
    (leading_chars : Z) : option (list (gset nat) * list event) :=
  let groups := get_comparison_groups df leading_chars in
  let total_comparisons := calculate_total_comparisons groups in
  match fold_left (process_group_logged df threshold total_comparisons)
                  (map snd groups)
                  (Some ({| duplicate_groups := []; processed := ∅;
                            comparison_count := 0 |}, [Progress 0])) with
  | None => None
  | Some (s, log) => Some (duplicate_groups s, log ++ [Progress 1; Complete])
  end.

(** The reports made while the counter goes from [a] to [b]: one pair of
    calls at every multiple of 100. *)
Definition progress_events (total_comparisons a b : nat) : list event :=
  flat_map (λ c, [Progress (Z.of_nat c # Pos.of_nat total_comparisons);
                  Status c total_comparisons])
           (List.filter (λ c, Nat.eqb (c mod 100) 0) (seq (S a) (b - a))).

(** * Notions of the specification

    Definitions the statements below are written with. *)

Definition pairwise_disjoint (cs : list (gset nat)) : Prop :=
  ∀ i j ci cj, i ≠ j → cs !! i = Some ci → cs !! j = Some cj → ci ## cj.

(** One pass of an anchor [idx1] over the indices after it. *)
Definition anchor_pass (df : dataframe) (threshold : Q) (st : state) (idx1 : nat)
    (later : list nat) : state :=
  anchor_step df threshold (idx1 :: later) st (0, idx1).

(** [n * (n - 1) // 2], the number of pairs of a block of [n] rows. *)
Definition pairs (n : nat) : nat := (n * (n - 1)) / 2.

(** What the specification says a block is: the rows, in row order, whose
    text is at least [leading_chars] long and whose lower-cased prefix is
    the key. *)
Definition block_key (leading_chars : Z) (text : string) : string :=
  Py.lower (Py.slice_to text leading_chars).

Definition in_block (leading_chars : Z) (key text : string) : bool :=
  (leading_chars <=? Z.of_nat (String.length text))%Z
  && String.eqb (block_key leading_chars text) key.

Definition block (df : dataframe) (leading_chars : Z) (key : string) : list nat :=
  List.filter (λ idx, in_block leading_chars key (comparison_text (iloc df idx)))
              (seq 0 (length df)).

(** [groups.get(key)] *)
Fixpoint lookup_key (key : string) (groups : list (string * list nat))
    : option (list nat) :=
  match groups with
  | [] => None
  | (k, v) :: rest => if String.eqb k key then Some v else lookup_key key rest
  end.

(** The dictionary before the singleton blocks are dropped. *)
Definition raw_groups (leading_chars : Z) (df : dataframe) : list (string * list nat) :=
  fold_left (group_step leading_chars) (Py.enumerate (map comparison_text df)) [].

(** The blocks are lists of distinct rows, and no row is in two blocks. *)
Fixpoint blocks_ok (gs : list (list nat)) : Prop :=
  match gs with
  | [] => True
  | g :: gs' => NoDup g ∧ (∀ g' x, g' ∈ gs' → x ∈ g → x ∉ g') ∧ blocks_ok gs'
  end.

(** The invariant of the three loops: the clusters emitted so far are
    disjoint, made of processed rows, have two members or more, and each
    lies inside one block. *)
Definition clusters_ok (gs : list (list nat)) (st : state) : Prop :=
  pairwise_disjoint (duplicate_groups st)
  ∧ ⋃ (duplicate_groups st) ⊆ processed st
  ∧ Forall (λ c : gset nat, 2 ≤ size c ∧ ∃ g, g ∈ gs ∧ ∀ x, x ∈ c → x ∈ g)
           (duplicate_groups st).

(** A cluster around a row [a]: [a] is its smallest member and every other
    member reaches the threshold against [a]. *)
Definition around (df : dataframe) (threshold : Q) (c : gset nat) : Prop :=
  ∃ a, a ∈ c ∧ (∀ j, j ∈ c → a ≤ j)
       ∧ ∀ j, j ∈ c → j ≠ a →
              Qle_bool threshold (calculate_similarity (iloc df a) (iloc df j)) = true.

(** The words the scorer compares. *)
Definition tokens (r : row) : gset string :=
  list_to_set (Fuzz.split (Fuzz.full_process (comparison_text r))).

(** A text of ASCII characters only (code points below 128). *)
Fixpoint is_ascii (s : string) : bool :=
  match s with
  | EmptyString => true
  | String c s' => (N_of_ascii c <? 128)%N && is_ascii s'
  end.

(** The total length of the blocks. *)
Definition rows_in_blocks (groups : list (string * list nat)) : nat :=
  sum_list (map (λ kv, length (snd kv)) groups).

(** The text written into [duplicate_rows] for a list of members. *)
Definition rows_str (members : list nat) : string :=
  Py.join ", " (map (λ idx, Py.str_int (Z.of_nat idx + 1)) members).

(** ** Example tables *)

(** Two identical rows (scenario 1 of the specification). *)
Definition table_identical : dataframe :=
  [[Str "Acme Corp"; Str "123 Main St"]; [Str "Acme Corp"; Str "123 Main St"]].

(** Three identical rows. *)
Definition table_triplet : dataframe :=
  [[Str "aa"]; [Str "aa"]; [Str "aa"]].

(** Four rows in one block: row 1 contains the words of rows 2 and 3, and
    shares one word with row 0. *)
Definition table_chain : dataframe :=
  [[Str "pr t"]; [Str "pa pb pr s"]; [Str "pa"]; [Str "pb"]].

(** Two rows that differ but share their first letter. *)
Definition table_pair : dataframe :=
  [[Str "Acme Corp"]; [Str "Apex Ltd"]].


(** Fifteen rows ["a0"], ..., ["a14"]: one block of 105 pairs, no two rows
    similar. *)
Definition table_distinct : dataframe :=
  map (λ n, [Str (String "a" (Py.str_int (Z.of_nat n)))]) (seq 0 15).

(** * Properties *)

(** ** The embedding on the scenarios of the specification *)

Example scenario_identical_rows :
  find_duplicates table_identical (9 # 10) 3 = [{[0; 1]}].
Proof. vm_compute. reflexivity. Qed.

Example scenario_different_prefix :
  get_comparison_groups [[Str "Acme Corp"]; [Str "Beta Inc"]] 1 = []
  ∧ find_duplicates [[Str "Acme Corp"]; [Str "Beta Inc"]] 0 1 = [].
Proof. split; vm_compute; reflexivity. Qed.

Example scenario_reordered_words :
  calculate_similarity [Str "John Smith"; Str "NY"] [Str "Smith John"; Str "NY"]
  = 100 # 100.
Proof. vm_compute. reflexivity. Qed.

Example scenario_five_identical :
  find_duplicates [[Str "x1"]; [Str "x1"]; [Str "x1"]; [Str "x1"]; [Str "x1"]] (9 # 10) 1
  = [{[0; 1; 2; 3; 4]}].
Proof. vm_compute. reflexivity. Qed.

Example scenario_empty_table threshold leading_chars :
  get_comparison_groups [] leading_chars = []
  ∧ find_duplicates_run [] threshold leading_chars
    = {| duplicate_groups := []; processed := ∅; comparison_count := 0 |}.
Proof. split; reflexivity. Qed.

(** The scores between the rows of [table_chain], in percent. *)
Example table_chain_scores :
  Fuzz.token_set_ratio "pr t" "pa pb pr s" = 67%Z
  ∧ Fuzz.token_set_ratio "pr t" "pa" = 33%Z
  ∧ Fuzz.token_set_ratio "pr t" "pb" = 33%Z
  ∧ Fuzz.token_set_ratio "pa pb pr s" "pa" = 100%Z
  ∧ Fuzz.token_set_ratio "pa pb pr s" "pb" = 100%Z
  ∧ Fuzz.token_set_ratio "pa" "pb" = 50%Z.
Proof. repeat split; vm_compute; reflexivity. Qed.

(** ** Enumerations *)

Lemma combine_seq_snoc {A} (l : list A) (x : A) (start : nat) :
  combine (seq start (length (l ++ [x]))) (l ++ [x])
  = combine (seq start (length l)) l ++ [(start + length l, x)].
Proof.
  revert start. induction l as [|y l IH]; intros start; simpl.
  - by rewrite Nat.add_0_r.
  - rewrite IH. by replace (S start + length l) with (start + S (length l)) by lia.
Qed.

Lemma enumerate_snoc {A} (l : list A) (x : A) :
  Py.enumerate (l ++ [x]) = Py.enumerate l ++ [(length l, x)].
Proof. apply (combine_seq_snoc l x 0). Qed.

(** ** The grouper, one loop at a time *)

Lemma pairwise_disjoint_snoc cs c :
  pairwise_disjoint cs → c ## ⋃ cs → pairwise_disjoint (cs ++ [c]).
Proof.
  intros Hcs Hc i j ci cj Hij Hi Hj.
  assert (Hin : ∀ k ck, k < length cs → cs !! k = Some ck → ck ⊆ ⋃ cs).
  { intros k ck _ Hk x Hx. apply elem_of_union_list. exists ck. split; [|done].
    by eapply list_elem_of_lookup_2. }
  destruct (decide (i < length cs)) as [Hli|Hli];
    destruct (decide (j < length cs)) as [Hlj|Hlj].
  - rewrite lookup_app_l in Hi by done. rewrite lookup_app_l in Hj by done. eauto.
  - rewrite lookup_app_l in Hi by done.
    rewrite lookup_app_r in Hj by lia.
    destruct (j - length cs) eqn:E; simpl in Hj; [|by destruct n]. simplify_eq.
    specialize (Hin _ _ Hli Hi). set_solver.
  - rewrite lookup_app_l in Hj by done.
    rewrite lookup_app_r in Hi by lia.
    destruct (i - length cs) eqn:E; simpl in Hi; [|by destruct n]. simplify_eq.
    specialize (Hin _ _ Hlj Hj). set_solver.
  - apply lookup_lt_Some in Hi, Hj. rewrite length_app in Hi, Hj. simpl in *. lia.
Qed.

Section grouper.
Context (df : dataframe) (threshold : Q).

Lemma anchor_step_at pre idx1 later st :
  anchor_step df threshold (pre ++ idx1 :: later) st (length pre, idx1)
  = anchor_pass df threshold st idx1 later.
Proof.
  unfold anchor_pass, anchor_step.
  replace (drop (S (length pre)) (pre ++ idx1 :: later)) with later; [reflexivity|].
  rewrite (cons_middle idx1 pre later), app_assoc.
  rewrite drop_app_length'; [done|]. rewrite length_app. simpl. lia.
Qed.

Lemma anchors_shift pre l st :
  fold_left (anchor_step df threshold (pre ++ l))
            (combine (seq (length pre) (length l)) l) st
  = process_group df threshold st l.
Proof.
  unfold process_group, Py.enumerate.
  revert pre st. induction l as [|x l IH]; intros pre st; [done|].
  cbn [length seq combine fold_left]. rewrite anchor_step_at.
  replace (pre ++ x :: l) with ((pre ++ [x]) ++ l) by by rewrite <- app_assoc.
  replace (S (length pre)) with (length (pre ++ [x])) by (rewrite length_app; simpl; lia).
  rewrite IH. fold (anchor_pass df threshold st x l).
  specialize (IH [x] (anchor_pass df threshold st x l)).
  cbn [length seq combine fold_left app] in *. by rewrite IH.
Qed.

Lemma process_group_nil st : process_group df threshold st [] = st.
Proof. done. Qed.

Lemma process_group_cons st idx1 later :
  process_group df threshold st (idx1 :: later)
  = process_group df threshold (anchor_pass df threshold st idx1 later) later.
Proof.
  unfold process_group at 1, Py.enumerate.
  cbn [length seq combine fold_left].
  fold (anchor_pass df threshold st idx1 later).
  apply (anchors_shift [idx1]).
Qed.

Lemma compare_step_eq row_i cg P n idx2 :
  compare_step df threshold row_i (cg, P, n) idx2
  = if decide (idx2 ∈ P) then (cg, P, n)
    else if Qle_bool threshold (calculate_similarity row_i (iloc df idx2))
         then ({[idx2]} ∪ cg, {[idx2]} ∪ P, S n) else (cg, P, S n).
Proof. reflexivity. Qed.

(** The inner loop adds a set [N] of later, unprocessed indices to both
    the current group and the processed set. *)
Lemma compare_loop_spec row_i l cg P n cg' P' n' :
  fold_left (compare_step df threshold row_i) l (cg, P, n) = (cg', P', n') →
  ∃ N : gset nat, N ⊆ list_to_set l ∧ N ## P ∧ cg' = N ∪ cg ∧ P' = N ∪ P
                  ∧ n ≤ n' ≤ n + length l.
Proof.
  revert cg P n. induction l as [|x l IH]; intros cg P n H; cbn [fold_left] in H.
  { injection H as <- <- <-. exists ∅. split_and!; [set_solver..| |]; simpl; lia. }
  rewrite compare_step_eq in H.
  destruct (decide (x ∈ P)) as [Hx|Hx].
  - destruct (IH _ _ _ H) as (N & ? & ? & ? & ? & ?).
    exists N. split_and!; [set_solver..| |]; simpl; lia.
  - destruct (Qle_bool _ _).
    + destruct (IH _ _ _ H) as (N & ? & ? & ? & ? & ?).
      exists ({[x]} ∪ N). split_and!; [set_solver..| |]; simpl; lia.
    + destruct (IH _ _ _ H) as (N & ? & ? & ? & ? & ?).
      exists N. split_and!; [set_solver..| |]; simpl; lia.
Qed.

(** Over distinct, unprocessed indices nothing is skipped: every index is
    compared, and exactly the similar ones are added. *)
Lemma compare_loop_exact row_i l cg P n :
  NoDup l → (∀ x, x ∈ l → x ∉ P) →
  let N : gset nat :=
    list_to_set (List.filter
      (λ idx2, Qle_bool threshold (calculate_similarity row_i (iloc df idx2))) l) in
  fold_left (compare_step df threshold row_i) l (cg, P, n)
  = (N ∪ cg, N ∪ P, n + length l).
Proof.
  revert cg P n. induction l as [|x l IH]; intros cg P n Hnd HP;
    cbn [fold_left List.filter length].
  { f_equal; [f_equal; set_solver|lia]. }
  apply NoDup_cons in Hnd as [Hx Hnd].
  rewrite compare_step_eq.
  destruct (decide (x ∈ P)) as [HxP|_]; [exfalso; apply (HP x); [left|done]|].
  destruct (Qle_bool _ _) eqn:E.
  - rewrite IH; [|done|]. 2:{ intros y Hy. specialize (HP y). set_solver. }
    cbn [list_to_set]. f_equal; [f_equal; set_solver|lia].
  - rewrite IH; [|done|]. 2:{ intros y Hy. apply HP. by right. }
    f_equal; lia.
Qed.

Lemma anchor_pass_skip st idx1 later :
  idx1 ∈ processed st → anchor_pass df threshold st idx1 later = st.
Proof. intros H. unfold anchor_pass, anchor_step. by rewrite decide_True. Qed.

(** What one anchor pass does to the state. *)
Lemma anchor_pass_spec st idx1 later :
  idx1 ∉ processed st →
  ∃ N : gset nat,
    N ⊆ list_to_set later ∧ N ## processed st
    ∧ processed (anchor_pass df threshold st idx1 later) = {[idx1]} ∪ N ∪ processed st
    ∧ duplicate_groups (anchor_pass df threshold st idx1 later)
      = (if 1 <? size (N ∪ {[idx1]})
         then duplicate_groups st ++ [N ∪ {[idx1]}] else duplicate_groups st)
    ∧ comparison_count st ≤ comparison_count (anchor_pass df threshold st idx1 later)
                           ≤ comparison_count st + length later.
Proof.
  intros H. unfold anchor_pass, anchor_step. rewrite decide_False by done.
  simpl drop.
  destruct (fold_left _ _ _) as [[cg' P'] n'] eqn:E.
  destruct (compare_loop_spec _ _ _ _ _ _ _ _ E) as (N & ? & ? & -> & -> & ?).
  rewrite drop_0 in *.
  exists N. simpl. split_and!; [done|done|set_solver|done|lia|lia].
Qed.

Lemma anchor_pass_exact st idx1 later :
  idx1 ∉ processed st → NoDup later → (∀ x, x ∈ later → x ∉ processed st) →
  let N : gset nat :=
    list_to_set (List.filter
      (λ idx2, Qle_bool threshold
                 (calculate_similarity (iloc df idx1) (iloc df idx2))) later) in
  anchor_pass df threshold st idx1 later
  = {| duplicate_groups :=
         if 1 <? size (N ∪ {[idx1]})
         then duplicate_groups st ++ [N ∪ {[idx1]}] else duplicate_groups st;
       processed := {[idx1]} ∪ (N ∪ processed st);
       comparison_count := comparison_count st + length later |}.
Proof.
  intros H Hnd HP N. unfold anchor_pass, anchor_step.
  rewrite decide_False by done. simpl drop. rewrite drop_0.
  by rewrite compare_loop_exact.
Qed.

(** When no later row is similar, the inner loop changes nothing but the
    counter. *)
Lemma compare_loop_nomatch row_i l cg P n :
  (∀ idx2, Qle_bool threshold (calculate_similarity row_i (iloc df idx2)) = false) →
  ∃ n', fold_left (compare_step df threshold row_i) l (cg, P, n) = (cg, P, n').
Proof.
  intros Hno. revert n. induction l as [|x l IH]; intros n; cbn [fold_left]; [eauto|].
  rewrite compare_step_eq, Hno. destruct (decide _); eauto.
Qed.

(** *** A whole block *)

Lemma process_group_skip st l :
  (∀ x, x ∈ l → x ∈ processed st) → process_group df threshold st l = st.
Proof.
  induction l as [|x l IH]; intros H; [done|].
  rewrite process_group_cons, anchor_pass_skip; [|apply H; left].
  apply IH. intros y Hy. apply H. by right.
Qed.

Lemma anchor_pass_groups_mono st idx1 later :
  length (duplicate_groups st)
  ≤ length (duplicate_groups (anchor_pass df threshold st idx1 later)).
Proof.
  destruct (decide (idx1 ∈ processed st)) as [H|H].
  - by rewrite anchor_pass_skip.
  - destruct (anchor_pass_spec st idx1 later H) as (N & _ & _ & _ & -> & _).
    destruct (1 <? _); [rewrite length_app; simpl|]; lia.
Qed.

Lemma process_group_groups_mono st l :
  length (duplicate_groups st)
  ≤ length (duplicate_groups (process_group df threshold st l)).
Proof.
  revert st. induction l as [|x l IH]; intros st; [done|].
  rewrite process_group_cons. etrans; [apply (anchor_pass_groups_mono st x l)|apply IH].
Qed.

Lemma run_groups_mono st gs :
  length (duplicate_groups st)
  ≤ length (duplicate_groups (fold_left (process_group df threshold) gs st)).
Proof.
  revert st. induction gs as [|g gs IH]; intros st; [done|].
  cbn [fold_left]. etrans; [apply (process_group_groups_mono st g)|apply IH].
Qed.

End grouper.

Lemma pairs_S n : pairs (S n) = n + pairs n.
Proof.
  unfold pairs. destruct n as [|m]; [done|].
  replace (S (S m) * (S (S m) - 1)) with (S m * 2 + S m * (S m - 1)) by (simpl; lia).
  by rewrite Nat.div_add_l.
Qed.

Lemma total_comparisons_acc (groups : list (string * list nat)) acc :
  fold_left (λ total kv, let n := length (snd kv) in total + (n * (n - 1)) / 2)
            groups acc
  = acc + sum_list (map (λ kv, pairs (length (snd kv))) groups).
Proof.
  revert acc. induction groups as [|kv groups IH]; intros acc;
    cbn -[Nat.div Nat.mul Nat.sub]; [lia|].
  rewrite IH. unfold pairs. lia.
Qed.

Lemma calculate_total_comparisons_sum groups :
  calculate_total_comparisons groups
  = sum_list (map (λ kv, pairs (length (snd kv))) groups).
Proof. unfold calculate_total_comparisons. by rewrite total_comparisons_acc. Qed.

(** ** The blocking engine *)

Lemma lookup_key_None key groups :
  lookup_key key groups = None ↔ key ∉ map fst groups.
Proof.
  induction groups as [|[k v] groups IH]; simpl.
  - split; [intros _; apply not_elem_of_nil|done].
  - destruct (String.eqb k key) eqn:E.
    + apply String.eqb_eq in E as ->. split; [done|]. intros H. destruct H. left.
    + apply String.eqb_neq in E. rewrite IH, not_elem_of_cons. naive_solver.
Qed.

Lemma lookup_key_elem_of key v groups :
  NoDup (map fst groups) → (key, v) ∈ groups ↔ lookup_key key groups = Some v.
Proof.
  induction groups as [|[k w] groups IH]; simpl; intros Hnd.
  - split; [intros H; by apply elem_of_nil in H|done].
  - apply NoDup_cons in Hnd as [Hk Hnd]. rewrite elem_of_cons, (IH Hnd).
    destruct (String.eqb k key) eqn:E.
    + apply String.eqb_eq in E as ->. split.
      * intros [?|H]; [by simplify_eq|].
        apply lookup_key_None in Hk. congruence.
      * intros ?; simplify_eq. by left.
    + apply String.eqb_neq in E. split; [intros [?|?]; [by simplify_eq|done]|by right].
Qed.

Lemma groups_append_keys groups key idx :
  map fst (groups_append groups key idx)
  = if decide (key ∈ map fst groups) then map fst groups
    else map fst groups ++ [key].
Proof.
  induction groups as [|[k v] groups IH]; cbn [groups_append map fst].
  - destruct (decide (key ∈ [])) as [H|H]; [by apply elem_of_nil in H|done].
  - destruct (String.eqb k key) eqn:E.
    + apply String.eqb_eq in E as ->. cbn [map fst].
      destruct (decide (key ∈ key :: map fst groups)) as [H|H]; [done|].
      destruct H. left.
    + apply String.eqb_neq in E. cbn [map fst]. rewrite IH.
      repeat case_decide; try done.
      * exfalso. set_solver.
      * exfalso. set_solver.
Qed.

Lemma groups_append_NoDup groups key idx :
  NoDup (map fst groups) → NoDup (map fst (groups_append groups key idx)).
Proof.
  intros H. rewrite groups_append_keys. case_decide; [done|].
  apply NoDup_app. split_and!; [done| |apply NoDup_singleton].
  intros x Hx ->%list_elem_of_singleton. done.
Qed.

Lemma groups_append_lookup groups key idx k :
  lookup_key k (groups_append groups key idx)
  = if String.eqb key k
    then Some (default [] (lookup_key key groups) ++ [idx])
    else lookup_key k groups.
Proof.
  induction groups as [|[k' v] groups IH]; simpl.
  - by destruct (String.eqb key k).
  - destruct (String.eqb k' key) eqn:E; simpl.
    + apply String.eqb_eq in E as ->. by destruct (String.eqb key k).
    + rewrite IH. destruct (String.eqb key k) eqn:E'; [|done].
      apply String.eqb_eq in E' as ->. by rewrite E.
Qed.

Section blocking.
Context (leading_chars : Z).

Lemma raw_groups_snoc df r :
  raw_groups leading_chars (df ++ [r])
  = group_step leading_chars (raw_groups leading_chars df) (length df, comparison_text r).
Proof.
  unfold raw_groups. rewrite map_app. simpl map.
  rewrite enumerate_snoc, fold_left_app. simpl. by rewrite length_map.
Qed.

Lemma block_snoc df r key :
  block (df ++ [r]) leading_chars key
  = block df leading_chars key
    ++ (if in_block leading_chars key (comparison_text r) then [length df] else []).
Proof.
  unfold block. rewrite length_app, seq_app, List.filter_app. simpl. f_equal.
  - apply List.filter_ext_in. intros i Hi%in_seq.
    unfold iloc. rewrite app_nth1; [done|lia].
  - unfold iloc. rewrite app_nth2, Nat.sub_diag; [done|lia].
Qed.

Lemma raw_groups_spec df :
  NoDup (map fst (raw_groups leading_chars df))
  ∧ ∀ key, lookup_key key (raw_groups leading_chars df)
           = match block df leading_chars key with
             | [] => None
             | v => Some v
             end.
Proof.
  induction df as [|r df [IHnd IH]] using rev_ind.
  { split; [apply NoDup_nil_2|done]. }
  rewrite raw_groups_snoc. unfold group_step.
  destruct (leading_chars <=? _)%Z eqn:Hlen.
  - split; [by apply groups_append_NoDup|]. intros key.
    rewrite groups_append_lookup, block_snoc. unfold in_block.
    rewrite Hlen. fold (block_key leading_chars (comparison_text r)). simpl.
    destruct (String.eqb _ key) eqn:E.
    + apply String.eqb_eq in E as <-. rewrite IH.
      by destruct (block df leading_chars _).
    + rewrite app_nil_r. apply IH.
  - split; [done|]. intros key. rewrite block_snoc. unfold in_block.
    rewrite Hlen. simpl. rewrite app_nil_r. apply IH.
Qed.

(** Every retained block is the specification's block of its key and has
    at least two rows; every such block is retained. *)
Lemma get_comparison_groups_spec df key v :
  (key, v) ∈ get_comparison_groups df leading_chars
  ↔ v = block df leading_chars key ∧ 2 ≤ length v.
Proof.
  unfold get_comparison_groups. fold (raw_groups leading_chars df).
  destruct (raw_groups_spec df) as [Hnd Hlook].
  rewrite list_elem_of_In, List.filter_In, <- list_elem_of_In.
  rewrite (lookup_key_elem_of _ _ _ Hnd), Hlook. simpl.
  rewrite Nat.ltb_lt. split.
  - intros [H ?]. destruct (block df leading_chars key); [done|]. by simplify_eq.
  - intros [-> ?]. destruct (block df leading_chars key); [simpl in *; lia|done].
Qed.

Lemma get_comparison_groups_NoDup df :
  NoDup (map fst (get_comparison_groups df leading_chars)).
Proof.
  unfold get_comparison_groups. fold (raw_groups leading_chars df).
  destruct (raw_groups_spec df) as [Hnd _].
  induction (raw_groups leading_chars df) as [|[k v] l IH]; simpl; [done|].
  apply NoDup_cons in Hnd as [Hk Hnd].
  destruct (1 <? length v); simpl; [|by apply IH].
  apply NoDup_cons. split; [|by apply IH].
  intros [[k' v'] [-> H]]%list_elem_of_fmap_1. apply Hk.
  apply list_elem_of_In, List.filter_In in H as [H _].
  apply list_elem_of_fmap. exists (k', v'). split; [done|]. by apply list_elem_of_In.
Qed.

End blocking.

Lemma elem_of_block df leading_chars key i :
  i ∈ block df leading_chars key
  ↔ i < length df ∧ in_block leading_chars key (comparison_text (iloc df i)) = true.
Proof.
  unfold block. rewrite list_elem_of_In, List.filter_In, in_seq. naive_solver lia.
Qed.

Lemma NoDup_block df leading_chars key : NoDup (block df leading_chars key).
Proof. apply NoDup_ListNoDup, List.NoDup_filter, NoDup_ListNoDup, NoDup_seq. Qed.

Lemma block_key_unique df leading_chars key key' i :
  i ∈ block df leading_chars key → i ∈ block df leading_chars key' → key = key'.
Proof.
  rewrite !elem_of_block. unfold in_block.
  intros [_ [_ H]%andb_true_iff] [_ [_ H']%andb_true_iff].
  apply String.eqb_eq in H, H'. congruence.
Qed.

Lemma blocks_ok_of_spec df leading_chars (groups : list (string * list nat)) :
  NoDup (map fst groups) →
  (∀ key v, (key, v) ∈ groups → v = block df leading_chars key) →
  blocks_ok (map snd groups).
Proof.
  induction groups as [|[k v] groups IH]; simpl; intros Hnd H; [done|].
  apply NoDup_cons in Hnd as [Hk Hnd]. split_and!.
  - rewrite (H k v) by left. apply NoDup_block.
  - intros g' x [[k' v'] [-> Hin]]%list_elem_of_fmap_1 Hx Hx'. simpl in Hx'.
    rewrite (H k v) in Hx by left.
    rewrite (H k' v') in Hx' by by right.
    pose proof (block_key_unique _ _ _ _ _ Hx Hx') as <-.
    apply Hk, list_elem_of_fmap. by exists (k, v').
  - apply IH; [done|]. intros key w Hw. apply H. by right.
Qed.

Lemma groups_in_range df leading_chars key v idx :
  (key, v) ∈ get_comparison_groups df leading_chars → idx ∈ v → idx < length df.
Proof.
  intros [-> _]%get_comparison_groups_spec Hidx.
  by apply elem_of_block in Hidx as [? _].
Qed.

Lemma groups_blocks_ok df leading_chars :
  blocks_ok (map snd (get_comparison_groups df leading_chars)).
Proof.
  apply (blocks_ok_of_spec df leading_chars).
  - apply get_comparison_groups_NoDup.
  - intros key v H. by apply get_comparison_groups_spec in H as [-> _].
Qed.

(** ** The clusters of a run *)

Section run.
Context (df : dataframe) (threshold : Q).

Lemma anchor_pass_ok gs g st idx1 later :
  g ∈ gs → (∀ x, x ∈ idx1 :: later → x ∈ g) →
  clusters_ok gs st → clusters_ok gs (anchor_pass df threshold st idx1 later).
Proof.
  intros Hg Hsub (Hdisj & Hproc & Hall).
  destruct (decide (idx1 ∈ processed st)) as [Hin|Hin].
  { by rewrite anchor_pass_skip. }
  destruct (anchor_pass_spec df threshold st idx1 later Hin)
    as (N & HN & HNP & HP & Hdg & _).
  unfold clusters_ok. rewrite HP, Hdg.
  destruct (1 <? size (N ∪ {[idx1]})) eqn:Hsz.
  - apply Nat.ltb_lt in Hsz. split_and!.
    + apply pairwise_disjoint_snoc; [done|]. set_solver.
    + rewrite union_list_app_L. simpl. set_solver.
    + apply Forall_app. split; [done|]. apply Forall_singleton.
      split; [lia|]. exists g. split; [done|].
      intros x Hx. apply Hsub.
      apply elem_of_union in Hx as [Hx|Hx%elem_of_singleton].
      * right. apply HN in Hx. by apply elem_of_list_to_set in Hx.
      * subst. left.
  - split_and!; [done|set_solver|done].
Qed.

Lemma process_group_ok gs g st l :
  g ∈ gs → (∀ x, x ∈ l → x ∈ g) →
  clusters_ok gs st → clusters_ok gs (process_group df threshold st l).
Proof.
  intros Hg. revert st. induction l as [|idx1 later IH]; intros st Hsub Hok; [done|].
  rewrite process_group_cons. apply IH.
  - intros x Hx. apply Hsub. by right.
  - by apply (anchor_pass_ok gs g).
Qed.

Lemma run_ok gs gs' st :
  (∀ g, g ∈ gs' → g ∈ gs) →
  clusters_ok gs st → clusters_ok gs (fold_left (process_group df threshold) gs' st).
Proof.
  revert st. induction gs' as [|g gs' IH]; intros st Hsub Hok; [done|].
  cbn [fold_left]. apply IH.
  - intros g' Hg'. apply Hsub. by right.
  - apply (process_group_ok gs g); [apply Hsub; left|done|done].
Qed.

Lemma find_duplicates_run_ok leading_chars :
  clusters_ok (map snd (get_comparison_groups df leading_chars))
              (find_duplicates_run df threshold leading_chars).
Proof.
  apply run_ok; [done|]. split_and!.
  - intros i j ci cj _ Hi. by destruct i.
  - simpl. set_solver.
  - apply Forall_nil_2.
Qed.

(** *** The comparison counter *)

Lemma process_group_count st l :
  comparison_count (process_group df threshold st l)
  ≤ comparison_count st + pairs (length l).
Proof.
  revert st. induction l as [|idx1 later IH]; intros st.
  { rewrite process_group_nil. lia. }
  rewrite process_group_cons. cbn [length]. rewrite pairs_S.
  etrans; [apply IH|].
  destruct (decide (idx1 ∈ processed st)) as [Hin|Hin].
  - rewrite anchor_pass_skip by done. lia.
  - destruct (anchor_pass_spec df threshold st idx1 later Hin)
      as (N & _ & _ & _ & _ & Hc). lia.
Qed.

Lemma run_count st (gs : list (list nat)) :
  comparison_count (fold_left (process_group df threshold) gs st)
  ≤ comparison_count st + sum_list (map (λ g, pairs (length g)) gs).
Proof.
  revert st. induction gs as [|g gs IH]; intros st; simpl; [lia|].
  etrans; [apply IH|]. pose proof (process_group_count st g). lia.
Qed.

End run.

(** ** Runs that emit nothing, and runs that merge everything *)

Lemma filter_all_true {A} (f : A → bool) (l : list A) :
  (∀ x, f x = true) → List.filter f l = l.
Proof. intros H. induction l as [|x l IH]; simpl; [done|]. by rewrite H, IH. Qed.

Section exact.
Context (df : dataframe) (threshold : Q).

Lemma process_group_quiet st g :
  NoDup g → (∀ x, x ∈ g → x ∉ processed st) →
  length (duplicate_groups (process_group df threshold st g))
  = length (duplicate_groups st) →
  process_group df threshold st g
  = {| duplicate_groups := duplicate_groups st;
       processed := list_to_set g ∪ processed st;
       comparison_count := comparison_count st + pairs (length g) |}.
Proof.
  revert st. induction g as [|idx1 later IH]; intros st Hnd HP Hlen.
  { rewrite process_group_nil. destruct st as [dg P n]. simpl.
    f_equal; [set_solver|unfold pairs; simpl; lia]. }
  apply NoDup_cons in Hnd as [Hidx1 Hnd].
  rewrite process_group_cons in *.
  assert (HP1 : idx1 ∉ processed st) by (apply HP; left).
  assert (HPl : ∀ x, x ∈ later → x ∉ processed st) by (intros x Hx; apply HP; by right).
  pose proof (anchor_pass_exact df threshold st idx1 later HP1 Hnd HPl) as Hst1.
  cbv zeta in Hst1.
  set (N := list_to_set (List.filter _ later) : gset nat) in Hst1.
  assert (HN : N ⊆ list_to_set later).
  { intros x Hx. apply elem_of_list_to_set. apply elem_of_list_to_set in Hx.
    apply list_elem_of_In, List.filter_In in Hx as [Hx _]. by apply list_elem_of_In. }
  pose proof (process_group_groups_mono df threshold
                (anchor_pass df threshold st idx1 later) later) as Hmono.
  assert (HNe : N = ∅).
  { destruct (1 <? size (N ∪ {[idx1]})) eqn:Hsz.
    - rewrite Hst1 in Hmono at 1. simpl in Hmono. rewrite length_app in Hmono.
      simpl in Hmono. lia.
    - apply Nat.ltb_ge in Hsz. rewrite size_union, size_singleton in Hsz.
      + apply leibniz_equiv, size_empty_iff. lia.
      + intros x Hx ->%elem_of_singleton. apply HN, elem_of_list_to_set in Hx. done. }
  rewrite HNe in Hst1. rewrite size_union, size_empty, size_singleton in Hst1
    by set_solver. simpl in Hst1.
  rewrite IH; [| done | |].
  - rewrite Hst1. simpl. cbn [length]. rewrite pairs_S.
    f_equal; [set_solver|lia].
  - rewrite Hst1. simpl. intros x Hx. specialize (HPl x Hx). set_solver.
  - rewrite Hlen. by rewrite Hst1.
Qed.

Lemma run_quiet st gs :
  blocks_ok gs → (∀ g x, g ∈ gs → x ∈ g → x ∉ processed st) →
  length (duplicate_groups (fold_left (process_group df threshold) gs st))
  = length (duplicate_groups st) →
  comparison_count (fold_left (process_group df threshold) gs st)
  = comparison_count st + sum_list (map (λ g, pairs (length g)) gs).
Proof.
  revert st. induction gs as [|g gs IH]; intros st Hok HP Hlen; simpl in *; [lia|].
  destruct Hok as (Hnd & Hdisj & Hok).
  pose proof (process_group_groups_mono df threshold st g) as H1.
  pose proof (run_groups_mono df threshold (process_group df threshold st g) gs) as H2.
  assert (Hq : process_group df threshold st g
               = {| duplicate_groups := duplicate_groups st;
                    processed := list_to_set g ∪ processed st;
                    comparison_count := comparison_count st + pairs (length g) |}).
  { apply process_group_quiet; [done| |lia]. intros x Hx. apply (HP g); [left|done]. }
  rewrite IH; [|done| |].
  - rewrite Hq. simpl. lia.
  - rewrite Hq. simpl. intros g' x Hg' Hx.
    apply not_elem_of_union. split.
    + rewrite elem_of_list_to_set. intros Hxg. by apply (Hdisj g' x).
    + apply (HP g'); [by right|done].
  - rewrite Hlen. by rewrite Hq.
Qed.

(** With a threshold no score reaches, no cluster is emitted. *)
Lemma anchor_pass_no_match st idx1 later :
  (∀ r1 r2, Qle_bool threshold (calculate_similarity r1 r2) = false) →
  duplicate_groups (anchor_pass df threshold st idx1 later) = duplicate_groups st.
Proof.
  intros Hno. unfold anchor_pass, anchor_step. destruct (decide _); [done|].
  destruct (compare_loop_nomatch df threshold (iloc df idx1)
              (drop 1 (idx1 :: later)) {[idx1]} (processed st) (comparison_count st))
    as [n' ->]; [done|].
  cbn [duplicate_groups]. by rewrite size_singleton.
Qed.

Lemma run_no_match st gs :
  (∀ r1 r2, Qle_bool threshold (calculate_similarity r1 r2) = false) →
  duplicate_groups (fold_left (process_group df threshold) gs st)
  = duplicate_groups st.
Proof.
  intros Hno. revert st. induction gs as [|g gs IH]; intros st; [done|].
  cbn [fold_left]. rewrite IH. clear IH. revert st.
  induction g as [|idx1 later IH]; intros st; [done|].
  by rewrite process_group_cons, IH, anchor_pass_no_match.
Qed.

(** With a threshold every score reaches, the first row of a block
    absorbs the whole block. *)
Lemma process_group_all_match st g :
  (∀ r1 r2, Qle_bool threshold (calculate_similarity r1 r2) = true) →
  NoDup g → (∀ x, x ∈ g → x ∉ processed st) → 2 ≤ length g →
  process_group df threshold st g
  = {| duplicate_groups := duplicate_groups st ++ [list_to_set g];
       processed := list_to_set g ∪ processed st;
       comparison_count := comparison_count st + (length g - 1) |}.
Proof.
  intros Hall Hnd HP Hlen. destruct g as [|idx1 later]; [simpl in Hlen; lia|].
  apply NoDup_cons in Hnd as [Hidx1 Hnd].
  rewrite process_group_cons, process_group_skip.
  - rewrite anchor_pass_exact; [|apply HP; left|done|intros x Hx; apply HP; by right].
    rewrite filter_all_true by (intros; apply Hall).
    rewrite size_union, size_singleton, size_list_to_set by
      (done || (intros x Hx%elem_of_list_to_set ->%elem_of_singleton; done)).
    simpl in Hlen.
    destruct (1 <? length later + 1) eqn:E; [|apply Nat.ltb_ge in E; lia].
    f_equal; [|set_solver|simpl; lia].
    f_equal. f_equal. simpl. set_solver.
  - intros x Hx.
    rewrite anchor_pass_exact; [|apply HP; left|done|intros y Hy; apply HP; by right].
    simpl. rewrite filter_all_true by (intros; apply Hall).
    rewrite !elem_of_union, elem_of_list_to_set. auto.
Qed.

Lemma run_all_match st gs :
  (∀ r1 r2, Qle_bool threshold (calculate_similarity r1 r2) = true) →
  blocks_ok gs → (∀ g x, g ∈ gs → x ∈ g → x ∉ processed st) →
  Forall (λ g, 2 ≤ length g) gs →
  duplicate_groups (fold_left (process_group df threshold) gs st)
  = duplicate_groups st ++ map list_to_set gs.
Proof.
  intros Hall. revert st.
  induction gs as [|g gs IH]; intros st Hok HP Hlen; simpl.
  { by rewrite app_nil_r. }
  destruct Hok as (Hnd & Hdisj & Hok). apply Forall_cons in Hlen as [Hg Hlen].
  rewrite process_group_all_match; [|done|done| |done].
  2:{ intros x Hx. apply (HP g); [left|done]. }
  rewrite IH; [|done| |done].
  - simpl. by rewrite <- app_assoc.
  - simpl. intros g' x Hg' Hx. apply not_elem_of_union. split.
    + rewrite elem_of_list_to_set. intros Hxg. by apply (Hdisj g' x).
    + apply (HP g'); [by right|done].
Qed.

End exact.

(** ** The scorer *)

Module FuzzFacts.
Import Fuzz.

Lemma lcs_nil_r a : lcs a [] = 0.
Proof. by destruct a. Qed.

Lemma lcs_cons_cons x a y b :
  lcs (x :: a) (y :: b)
  = if Ascii.eqb x y then S (lcs a b)
    else Nat.max (lcs a (y :: b)) (lcs (x :: a) b).
Proof. reflexivity. Qed.

Lemma lcs_comm a b : lcs a b = lcs b a.
Proof.
  revert b. induction a as [|x a IHa]; intros b.
  { by rewrite lcs_nil_r. }
  induction b as [|y b IHb]; [done|].
  rewrite !lcs_cons_cons, (Ascii.eqb_sym y x), IHa, (IHa (y :: b)), IHb.
  by rewrite Nat.max_comm.
Qed.

Lemma indel_distance_comm s1 s2 : indel_distance s1 s2 = indel_distance s2 s1.
Proof. unfold indel_distance. rewrite (lcs_comm (list_ascii_of_string s1)). lia. Qed.

Lemma indel_distance_le s1 s2 :
  indel_distance s1 s2 ≤ String.length s1 + String.length s2.
Proof. unfold indel_distance. lia. Qed.

(** *** Rounding *)

Lemma round_proper q q' : (q == q')%Q → Py.round q = Py.round q'.
Proof.
  intros H. unfold Py.round. rewrite (Qfloor_comp _ _ H).
  assert (Hc : (q - inject_Z (Qfloor q') ?= 1 # 2)%Q
               = (q' - inject_Z (Qfloor q') ?= 1 # 2)%Q) by by rewrite H.
  by rewrite Hc.
Qed.

Lemma round_Z z : Py.round (inject_Z z) = z.
Proof.
  unfold Py.round. rewrite Qfloor_Z.
  assert (H : (inject_Z z - inject_Z z ?= 1 # 2)%Q = Lt).
  { rewrite <- Qlt_alt. lra. }
  by rewrite H.
Qed.

Lemma round_range q : (0 <= q)%Q → (q <= 100)%Q → (0 ≤ Py.round q ≤ 100)%Z.
Proof.
  intros H0 H100. unfold Py.round.
  pose proof (Qfloor_le q) as Hfl.
  assert (H0' : (0 ≤ Qfloor q)%Z).
  { change 0%Z with (Qfloor 0). by apply Qfloor_resp_le. }
  assert (H100' : (Qfloor q ≤ 100)%Z).
  { change 100%Z with (Qfloor 100). by apply Qfloor_resp_le. }
  destruct (Qcompare _ _) eqn:E; [|lia|].
  - rewrite <- Qeq_alt in E.
    assert (Hlt : (inject_Z (Qfloor q) < inject_Z 100)%Q).
    { change (inject_Z 100) with 100%Q. lra. }
    rewrite <- Zlt_Qlt in Hlt. destruct (Z.even _); lia.
  - rewrite <- Qgt_alt in E.
    assert (Hlt : (inject_Z (Qfloor q) < inject_Z 100)%Q).
    { change (inject_Z 100) with 100%Q. lra. }
    rewrite <- Zlt_Qlt in Hlt. lia.
Qed.

(** *** The range of the score *)

Lemma norm_distance_range dist lensum :
  dist ≤ lensum → (0 <= norm_distance dist lensum)%Q ∧ (norm_distance dist lensum <= 100)%Q.
Proof.
  intros H. unfold norm_distance. destruct (Nat.eqb_spec lensum 0) as [->|Hne].
  { split; discriminate. }
  assert (Hpos : Z.pos (Pos.of_nat lensum) = Z.of_nat lensum).
  { lia. }
  assert (Hq0 : (0 <= Z.of_nat (100 * dist) # Pos.of_nat lensum)%Q).
  { unfold Qle. simpl. lia. }
  assert (Hq1 : (Z.of_nat (100 * dist) # Pos.of_nat lensum <= 100)%Q).
  { unfold Qle. simpl Qnum. simpl Qden. rewrite Hpos. lia. }
  split; lra.
Qed.

Lemma rapidfuzz_token_set_ratio_range s1 s2 :
  (0 <= rapidfuzz_token_set_ratio s1 s2)%Q ∧ (rapidfuzz_token_set_ratio s1 s2 <= 100)%Q.
Proof.
  unfold rapidfuzz_token_set_ratio. cbv zeta.
  destruct (decide _); [split; discriminate|].
  destruct (decide _); [split; discriminate|].
  set (ab := Py.join " " (Py.sorted_str _)).
  set (ba := Py.join " " (Py.sorted_str _)).
  set (sect_len := String.length _).
  pose proof (indel_distance_le ab ba) as Hd.
  destruct (norm_distance_range (indel_distance ab ba)
              (sect_len + nonzero sect_len + String.length ab
               + (sect_len + nonzero sect_len + String.length ba))) as [Hr0 Hr1]; [lia|].
  destruct (norm_distance_range (nonzero sect_len + String.length ab)
              (sect_len + (sect_len + nonzero sect_len + String.length ab))) as [Ha0 Ha1]; [lia|].
  destruct (norm_distance_range (nonzero sect_len + String.length ba)
              (sect_len + (sect_len + nonzero sect_len + String.length ba))) as [Hb0 Hb1]; [lia|].
  destruct (Nat.eqb sect_len 0); [done|]. split.
  - eapply Qle_trans; [apply Hb0|apply Q.le_max_r].
  - by repeat apply Q.max_lub.
Qed.

Lemma token_set_ratio_range s1 s2 : (0 ≤ token_set_ratio s1 s2 ≤ 100)%Z.
Proof.
  unfold token_set_ratio.
  destruct (rapidfuzz_token_set_ratio_range (full_process s1) (full_process s2)).
  by apply round_range.
Qed.

(** *** Symmetry *)

Lemma rapidfuzz_token_set_ratio_comm s1 s2 :
  (rapidfuzz_token_set_ratio s1 s2 == rapidfuzz_token_set_ratio s2 s1)%Q.
Proof.
  unfold rapidfuzz_token_set_ratio. cbv zeta.
  set (A := list_to_set (split s1) : gset string).
  set (B := list_to_set (split s2) : gset string).
  clearbody A B. assert (A ∩ B = B ∩ A) as -> by set_solver.
  destruct (decide (A = ∅ ∨ B = ∅)), (decide (B = ∅ ∨ A = ∅)); try tauto; [reflexivity|].
  destruct (decide (B ∩ A ≠ ∅ ∧ (A ∖ B = ∅ ∨ B ∖ A = ∅))),
           (decide (B ∩ A ≠ ∅ ∧ (B ∖ A = ∅ ∨ A ∖ B = ∅))); try tauto; [reflexivity|].
  set (ab := Py.join " " (Py.sorted_str (A ∖ B))).
  set (ba := Py.join " " (Py.sorted_str (B ∖ A))).
  set (sect_len := String.length _).
  rewrite (indel_distance_comm ba ab).
  replace (sect_len + nonzero sect_len + String.length ba
           + (sect_len + nonzero sect_len + String.length ab))
    with (sect_len + nonzero sect_len + String.length ab
          + (sect_len + nonzero sect_len + String.length ba)) by lia.
  destruct (Nat.eqb sect_len 0); [reflexivity|].
  rewrite <- !Q.max_assoc. apply Q.max_compat; [reflexivity|apply Q.max_comm].
Qed.

Lemma token_set_ratio_comm s1 s2 : token_set_ratio s1 s2 = token_set_ratio s2 s1.
Proof. apply round_proper, rapidfuzz_token_set_ratio_comm. Qed.

(** *** Equal strings, and strings without tokens *)


Lemma token_set_ratio_no_tokens s1 s2 :
  split (full_process s1) = [] → token_set_ratio s1 s2 = 0%Z.
Proof.
  intros H. unfold token_set_ratio, rapidfuzz_token_set_ratio. cbv zeta.
  rewrite H. rewrite decide_True; [apply (round_Z 0)|by left].
Qed.

(** *** Which texts keep a token *)











End FuzzFacts.

(** ** Prefixes and lower case *)

Lemma lower_length s : String.length (Py.lower s) = String.length s.
Proof. induction s as [|c s IH]; simpl; [done|]. by rewrite IH. Qed.

Lemma lower_substring n m s :
  substring n m (Py.lower s) = Py.lower (substring n m s).
Proof.
  revert n m. induction s as [|c s IH]; intros n m.
  - by destruct n, m.
  - destruct n, m; simpl; try done; by rewrite IH.
Qed.

(** The prefix of the lower-cased text is the lower-cased prefix. This is
    a fact of the per-character [Py.lower], hence of texts within the code
    points 0..255 only. *)
Lemma lower_slice_to text k :
  Py.slice_to (Py.lower text) k = Py.lower (Py.slice_to text k).
Proof. unfold Py.slice_to. rewrite lower_length. apply lower_substring. Qed.

Lemma slice_to_0 text : Py.slice_to text 0 = "".
Proof. unfold Py.slice_to. simpl. by destruct text. Qed.

(** ** Counting the flagged rows *)

Lemma pairwise_disjoint_cons c cs :
  pairwise_disjoint (c :: cs) → c ## ⋃ cs ∧ pairwise_disjoint cs.
Proof.
  intros H. split.
  - intros x Hx [c' [Hc' Hx']]%elem_of_union_list.
    apply list_elem_of_lookup in Hc' as [j Hj].
    by apply (H 0 (S j) c c' ltac:(lia) eq_refl Hj x).
  - intros i j ci cj Hij Hi Hj. apply (H (S i) (S j)); [lia|done|done].
Qed.

Lemma n_duplicates_disjoint cs :
  pairwise_disjoint cs → n_duplicates cs = size (⋃ cs).
Proof.
  unfold n_duplicates. induction cs as [|c cs IH]; intros H.
  - reflexivity.
  - apply pairwise_disjoint_cons in H as [Hc Hcs].
    change (⋃ (c :: cs)) with (c ∪ ⋃ cs). rewrite size_union by done.
    rewrite <- IH by done. reflexivity.
Qed.

Lemma size_list_to_set_le (g : list nat) :
  size (list_to_set g : gset nat) ≤ length g.
Proof.
  induction g as [|x g IH]; [done|].
  change (size ({[x]} ∪ list_to_set g : gset nat) ≤ S (length g)).
  rewrite size_union_alt, size_singleton.
  pose proof (subseteq_size (list_to_set g ∖ {[x]} : gset nat) (list_to_set g)
                ltac:(set_solver)).
  lia.
Qed.

Lemma size_union_blocks (gs : list (list nat)) :
  size (⋃ (map list_to_set gs : list (gset nat))) ≤ sum_list (map length gs).
Proof.
  induction gs as [|g gs IH].
  - reflexivity.
  - change (size (list_to_set g ∪ ⋃ (map list_to_set gs : list (gset nat)))
            ≤ length g + sum_list (map length gs)).
    rewrite size_union_alt.
    pose proof (size_list_to_set_le g) as Hg.
    pose proof (subseteq_size (⋃ (map list_to_set gs : list (gset nat)) ∖ list_to_set g)
                  (⋃ (map list_to_set gs : list (gset nat))) ltac:(set_solver)).
    lia.
Qed.

Lemma n_duplicates_blocks (gs : list (list nat)) :
  Forall NoDup gs →
  n_duplicates (map list_to_set gs) = sum_list (map length gs).
Proof.
  unfold n_duplicates. induction 1 as [|g gs Hg _ IH]; [done|].
  change (size (list_to_set g : gset nat)
          + sum_list (map size (map list_to_set gs : list (gset nat)))
          = length g + sum_list (map length gs)).
  by rewrite size_list_to_set, IH.
Qed.

Lemma blocks_ok_NoDup gs : blocks_ok gs → Forall NoDup gs.
Proof.
  induction gs as [|g gs IH]; simpl; [by constructor|].
  intros (? & _ & ?). constructor; auto.
Qed.

Lemma clusters_ok_count gs st :
  clusters_ok gs st → n_duplicates (duplicate_groups st) ≤ sum_list (map length gs).
Proof.
  intros (Hdisj & _ & Hall).
  rewrite n_duplicates_disjoint by done.
  etrans; [|apply size_union_blocks]. apply subseteq_size.
  intros x [c [Hc Hx]]%elem_of_union_list.
  rewrite Forall_forall in Hall. destruct (Hall c Hc) as (_ & g & Hg & Hsub).
  apply elem_of_union_list. exists (list_to_set g). split.
  - apply list_elem_of_fmap. by exists g.
  - apply elem_of_list_to_set. auto.
Qed.

(** ** The annotation loop *)

Lemma elem_of_sorted_nat (c : gset nat) x : x ∈ Py.sorted_nat c ↔ x ∈ c.
Proof. unfold Py.sorted_nat. by rewrite merge_sort_Permutation, elem_of_elements. Qed.

Lemma sorted_nat_sorted (c : gset nat) :
  StronglySorted (≤) (Py.sorted_nat c) ∧ NoDup (Py.sorted_nat c).
Proof.
  unfold Py.sorted_nat. split.
  - apply (StronglySorted_merge_sort (≤)).
  - rewrite merge_sort_Permutation. apply NoDup_elements.
Qed.

(** Writing one value into both columns at the rows of [l]. *)
Lemma write_rows_lookup (v : Z) (w : string) (l : list nat) (ann : annotation) r :
  let ann' := fold_left (λ (a : annotation) idx, (<[idx := v]> (fst a), <[idx := w]> (snd a)))
                        l ann in
  (r ∈ l → fst ann' !! r = Some v ∧ snd ann' !! r = Some w)
  ∧ (r ∉ l → fst ann' !! r = fst ann !! r ∧ snd ann' !! r = snd ann !! r).
Proof.
  revert ann. induction l as [|idx l IH]; intros ann; cbn [fold_left].
  { split; [intros H; by apply elem_of_nil in H|done]. }
  destruct (IH (<[idx := v]> (fst ann), <[idx := w]> (snd ann))) as [IHin IHout].
  cbv zeta. split.
  - intros Hr. destruct (decide (r ∈ l)) as [Hl|Hl]; [by apply IHin|].
    apply elem_of_cons in Hr as [->|Hr]; [|done].
    destruct (IHout Hl) as [-> ->]. simpl. by rewrite !lookup_insert_eq.
  - intros Hr. apply not_elem_of_cons in Hr as [Hne Hl].
    destruct (IHout Hl) as [-> ->]. simpl. by rewrite !lookup_insert_ne.
Qed.

Lemma annotate_group_lookup (ann : annotation) i (c : gset nat) r :
  let ann' := annotate_group ann (i, c) in
  (r ∈ c → fst ann' !! r = Some (Z.of_nat i + 1)%Z
           ∧ snd ann' !! r = Some (rows_str (Py.sorted_nat c)))
  ∧ (r ∉ c → fst ann' !! r = fst ann !! r ∧ snd ann' !! r = snd ann !! r).
Proof.
  cbv zeta. unfold annotate_group. rewrite <- elem_of_sorted_nat.
  apply (write_rows_lookup (Z.of_nat i + 1)%Z (rows_str (Py.sorted_nat c))).
Qed.

Lemma pairwise_disjoint_snoc_inv cs c :
  pairwise_disjoint (cs ++ [c]) →
  pairwise_disjoint cs ∧ ∀ i ci, cs !! i = Some ci → ci ## c.
Proof.
  intros H. split.
  - intros i j ci cj Hij Hi Hj.
    apply (H i j); [done|by apply lookup_app_l_Some..].
  - intros i ci Hi. apply (H i (length cs)).
    + apply lookup_lt_Some in Hi. lia.
    + by apply lookup_app_l_Some.
    + by rewrite lookup_app_r, Nat.sub_diag.
Qed.

Lemma annotate_fold_spec (ann0 : annotation) (cs : list (gset nat)) r :
  pairwise_disjoint cs →
  let ann := fold_left annotate_group (Py.enumerate cs) ann0 in
  ((∀ c, c ∈ cs → r ∉ c) → fst ann !! r = fst ann0 !! r ∧ snd ann !! r = snd ann0 !! r)
  ∧ (∀ i c, cs !! i = Some c → r ∈ c →
       fst ann !! r = Some (Z.of_nat i + 1)%Z
       ∧ snd ann !! r = Some (rows_str (Py.sorted_nat c))).
Proof.
  cbv zeta. induction cs as [|c' cs IH] using rev_ind; intros Hdisj.
  { split; [done|]. intros i c Hi. by destruct i. }
  apply pairwise_disjoint_snoc_inv in Hdisj as [Hdisj Hlast].
  destruct (IH Hdisj) as [IHout IHin]. clear IH.
  rewrite enumerate_snoc, fold_left_app. cbn [fold_left].
  set (ann := fold_left annotate_group (Py.enumerate cs) ann0) in *.
  destruct (annotate_group_lookup ann (length cs) c' r) as [Hin Hout].
  cbv zeta in Hin, Hout. split.
  - intros Hnone.
    destruct Hout as [-> ->]; [apply Hnone, elem_of_app; right; left|].
    apply IHout. intros c Hc. apply Hnone, elem_of_app. by left.
  - intros i c Hi Hr. destruct (decide (i < length cs)) as [Hlt|Hge].
    + rewrite lookup_app_l in Hi by done.
      destruct Hout as [-> ->]; [|by apply IHin].
      intros Hr'. by apply (Hlast i c Hi r).
    + rewrite lookup_app_r in Hi by lia.
      destruct (i - length cs) as [|k] eqn:E; [|by destruct k].
      simpl in Hi. simplify_eq. replace i with (length cs) by lia. by apply Hin.
Qed.

(** * The claims *)

(** ** Thresholds every score reaches, and thresholds no score reaches *)

Lemma similarity_range row1 row2 :
  (0 <= calculate_similarity row1 row2)%Q ∧ (calculate_similarity row1 row2 <= 1)%Q.
Proof.
  unfold calculate_similarity.
  pose proof (FuzzFacts.token_set_ratio_range (comparison_text row1) (comparison_text row2)).
  unfold Qle. simpl. lia.
Qed.

Lemma low_threshold_all_match threshold row1 row2 :
  (threshold <= 0)%Q → Qle_bool threshold (calculate_similarity row1 row2) = true.
Proof.
  intros H. apply Qle_bool_iff.
  destruct (similarity_range row1 row2). by eapply Qle_trans.
Qed.

Lemma high_threshold_no_match threshold row1 row2 :
  (1 < threshold)%Q → Qle_bool threshold (calculate_similarity row1 row2) = false.
Proof.
  intros H. apply not_true_is_false. intros Hle%Qle_bool_iff.
  destruct (similarity_range row1 row2). lra.
Qed.

Lemma groups_plural df leading_chars :
  Forall (λ g, 2 ≤ length g) (map snd (get_comparison_groups df leading_chars)).
Proof.
  apply Forall_forall. intros g [[k v] [-> H]]%list_elem_of_fmap_1.
  by apply get_comparison_groups_spec in H as [_ ?].
Qed.

Lemma find_duplicates_low_threshold df threshold leading_chars :
  (threshold <= 0)%Q →
  find_duplicates df threshold leading_chars
  = map (λ kv, list_to_set (snd kv)) (get_comparison_groups df leading_chars).
Proof.
  intros H. unfold find_duplicates, find_duplicates_run.
  rewrite run_all_match.
  - simpl. by rewrite map_map.
  - intros. by apply low_threshold_all_match.
  - apply groups_blocks_ok.
  - simpl. set_solver.
  - apply groups_plural.
Qed.

Lemma find_duplicates_pairwise_disjoint df threshold leading_chars :
  pairwise_disjoint (find_duplicates df threshold leading_chars).
Proof. by destruct (find_duplicates_run_ok df threshold leading_chars) as (? & _ & _). Qed.

(** ** C1 *)

(** C1. For every table, threshold and [leading_chars], the clusters that
    [find_duplicates] returns are pairwise disjoint, and every cluster has
    at least two members. *)
Theorem find_duplicates_disjoint_plural df threshold leading_chars :
  pairwise_disjoint (find_duplicates df threshold leading_chars)
  ∧ Forall (λ c, 2 ≤ size c) (find_duplicates df threshold leading_chars).
Proof.
  destruct (find_duplicates_run_ok df threshold leading_chars) as (Hdisj & _ & Hall).
  split; [done|]. eapply Forall_impl; [apply Hall|]. by intros c [? _].
Qed.

(** ** C2 *)

(** C2. For every [leading_chars] (in particular when it is at least 1),
    every row [i] of a returned cluster is a row of the table whose
    comparison text has at least [leading_chars] characters, and any two
    rows [i], [j] of one cluster share a block: the lower-cased first
    [leading_chars] characters of their texts, [text[:leading_chars].lower()]
    as the code computes the key, are the same. *)
Theorem clusters_within_block df threshold leading_chars c i j :
  c ∈ find_duplicates df threshold leading_chars → i ∈ c → j ∈ c →
  i < length df
  ∧ (leading_chars ≤ Z.of_nat (String.length (comparison_text (iloc df i))))%Z
  ∧ Py.lower (Py.slice_to (comparison_text (iloc df i)) leading_chars)
    = Py.lower (Py.slice_to (comparison_text (iloc df j)) leading_chars).
Proof.
  intros Hc Hi Hj.
  destruct (find_duplicates_run_ok df threshold leading_chars) as (_ & _ & Hall).
  rewrite Forall_forall in Hall.
  destruct (Hall c Hc) as (_ & g & [[k v] [-> Hkv]]%list_elem_of_fmap_1 & Hsub).
  apply get_comparison_groups_spec in Hkv as [Hv _]. simpl in Hsub. subst v.
  apply Hsub, elem_of_block in Hi as [Hlt [Hlen Hk]%andb_true_iff].
  apply Hsub, elem_of_block in Hj as [_ [_ Hk']%andb_true_iff].
  apply String.eqb_eq in Hk, Hk'. unfold block_key in *.
  split_and!; [done|lia|congruence].
Qed.

Lemma clusters_within_block_witness :
  0 < length table_identical
  ∧ (3 ≤ Z.of_nat (String.length (comparison_text (iloc table_identical 0))))%Z
  ∧ Py.lower (Py.slice_to (comparison_text (iloc table_identical 0)) 3)
    = Py.lower (Py.slice_to (comparison_text (iloc table_identical 1)) 3).
Proof.
  apply (clusters_within_block table_identical (9 # 10) 3 {[0; 1]} 0 1).
  - vm_compute. left.
  - apply (bool_decide_unpack _). vm_compute. exact I.
  - apply (bool_decide_unpack _). vm_compute. exact I.
Defined.

(** ** C5 *)

(** C5. [get_comparison_groups] is a mapping (no key twice) that sends a
    key to exactly the rows, in row order, whose text has at least
    [leading_chars] characters and whose lower-cased prefix is the key;
    it holds such a block if and only if the block has two rows or more. *)
Theorem get_comparison_groups_blocks df leading_chars :
  NoDup (map fst (get_comparison_groups df leading_chars))
  ∧ ∀ key v, (key, v) ∈ get_comparison_groups df leading_chars
             ↔ v = block df leading_chars key ∧ 2 ≤ length v.
Proof.
  split; [apply get_comparison_groups_NoDup|apply get_comparison_groups_spec].
Qed.

(** When no cluster is emitted, every pair of every block was compared. *)
Lemma quiet_run_count df threshold leading_chars :
  find_duplicates df threshold leading_chars = [] →
  comparison_count (find_duplicates_run df threshold leading_chars)
  = calculate_total_comparisons (get_comparison_groups df leading_chars).
Proof.
  unfold find_duplicates. intros Hnil.
  rewrite calculate_total_comparisons_sum. unfold find_duplicates_run in *.
  rewrite run_quiet.
  - simpl. by rewrite map_map.
  - apply groups_blocks_ok.
  - simpl. set_solver.
  - by rewrite Hnil.
Qed.

(** ** C6 *)

(** C6, counterexample. On three identical rows the first row absorbs the
    other two after 2 comparisons, and the pair of rows 1 and 2 is never
    compared: the counter ends at 2 while [calculate_total_comparisons]
    announces 3. *)
Lemma comparison_count_below_total :
  comparison_count (find_duplicates_run table_triplet (9 # 10) 1) = 2
  ∧ calculate_total_comparisons (get_comparison_groups table_triplet 1) = 3
  ∧ comparison_count (find_duplicates_run table_triplet (9 # 10) 1)
    ≠ calculate_total_comparisons (get_comparison_groups table_triplet 1).
Proof. split_and!; [vm_compute; reflexivity..|]. vm_compute. lia. Qed.

(** C6, amended. [calculate_total_comparisons] is the sum of
    [n * (n - 1) / 2] over the retained blocks; the number of comparisons
    performed never exceeds it, and equals it when no cluster is emitted. *)
Theorem comparison_count_le_total df threshold leading_chars :
  calculate_total_comparisons (get_comparison_groups df leading_chars)
  = sum_list (map (λ kv, (length (snd kv) * (length (snd kv) - 1)) / 2)
                  (get_comparison_groups df leading_chars))
  ∧ comparison_count (find_duplicates_run df threshold leading_chars)
    ≤ calculate_total_comparisons (get_comparison_groups df leading_chars)
  ∧ (find_duplicates df threshold leading_chars = [] →
     comparison_count (find_duplicates_run df threshold leading_chars)
     = calculate_total_comparisons (get_comparison_groups df leading_chars)).
Proof.
  split_and!.
  - apply calculate_total_comparisons_sum.
  - rewrite calculate_total_comparisons_sum. unfold find_duplicates_run.
    etrans; [apply run_count|]. simpl. by rewrite map_map.
  - apply quiet_run_count.
Qed.

Lemma comparison_count_le_total_witness :
  comparison_count (find_duplicates_run table_pair (9 # 10) 1)
  = calculate_total_comparisons (get_comparison_groups table_pair 1).
Proof.
  apply (comparison_count_le_total table_pair (9 # 10) 1).
  vm_compute. reflexivity.
Defined.

(** ** C3 *)

(** C3, counterexample. A threshold of -1 (below 0) and a [leading_chars]
    of 0 (below 1) are both outside their domains, and [find_duplicates]
    runs all the same: it compares the two rows of the table and returns
    them as a cluster. *)
Lemma invalid_configuration_runs :
  (-1 < 0)%Q ∧ (0 < 1)%Z
  ∧ find_duplicates table_pair (-1) 0 = [{[0; 1]}]
  ∧ comparison_count (find_duplicates_run table_pair (-1) 0) = 1.
Proof. split_and!; [reflexivity..|vm_compute; reflexivity|vm_compute; reflexivity]. Qed.

(** C3, amended. [find_duplicates] validates nothing and runs the same
    loops on every configuration. A threshold above 1 yields no cluster,
    after all the comparisons of [calculate_total_comparisons]; a
    threshold of 0 or below turns every retained block into one cluster;
    with [leading_chars = 0] the only possible block is the whole table
    under the empty key. *)
Theorem find_duplicates_unvalidated df threshold leading_chars :
  ((1 < threshold)%Q →
   find_duplicates df threshold leading_chars = []
   ∧ comparison_count (find_duplicates_run df threshold leading_chars)
     = calculate_total_comparisons (get_comparison_groups df leading_chars))
  ∧ ((threshold <= 0)%Q →
     find_duplicates df threshold leading_chars
     = map (λ kv, list_to_set (snd kv)) (get_comparison_groups df leading_chars))
  ∧ (leading_chars = 0%Z →
     ∀ key v, (key, v) ∈ get_comparison_groups df leading_chars →
              key = "" ∧ v = seq 0 (length df)).
Proof.
  split_and!.
  - intros Ht.
    assert (Hnil : find_duplicates df threshold leading_chars = []).
    { unfold find_duplicates, find_duplicates_run. rewrite run_no_match; [done|].
      intros. by apply high_threshold_no_match. }
    split; [done|]. by apply quiet_run_count.
  - apply find_duplicates_low_threshold.
  - intros -> key v [-> Hlen]%get_comparison_groups_spec.
    destruct (block df 0 key) as [|i l] eqn:E; [simpl in Hlen; lia|].
    assert (Hi : i ∈ block df 0 key) by (rewrite E; left).
    apply elem_of_block in Hi as [_ [_ Hk]%andb_true_iff].
    apply String.eqb_eq in Hk. unfold block_key in Hk.
    rewrite slice_to_0 in Hk. simpl in Hk. subst key. split; [done|].
    rewrite <- E. unfold block. apply filter_all_true.
    intros idx. unfold in_block, block_key. rewrite slice_to_0.
    apply andb_true_iff. split; [apply Z.leb_le; lia|reflexivity].
Qed.

Lemma find_duplicates_unvalidated_witness :
  (find_duplicates table_pair (3 # 2) 1 = []
   ∧ comparison_count (find_duplicates_run table_pair (3 # 2) 1)
     = calculate_total_comparisons (get_comparison_groups table_pair 1))
  ∧ find_duplicates table_pair (-1) 1
    = map (λ kv, list_to_set (snd kv)) (get_comparison_groups table_pair 1)
  ∧ ("", [0; 1]) = ("", seq 0 (length table_pair)).
Proof.
  split; [|split].
  - destruct (find_duplicates_unvalidated table_pair (3 # 2) 1) as (H & _ & _).
    apply H. reflexivity.
  - destruct (find_duplicates_unvalidated table_pair (-1) 1) as (_ & H & _).
    apply H. unfold Qle. simpl. lia.
  - destruct (find_duplicates_unvalidated table_pair 0 0) as (_ & _ & H).
    destruct (H eq_refl "" [0; 1]) as [_ ->]; [vm_compute; left|reflexivity].
Defined.

(** ** C4 *)

(** C4, counterexample. In [table_chain], row 0 scores 0.67 against row 1
    and at most 0.33 against rows 2 and 3, row 1 scores 1.0 against rows 2
    and 3, and rows 2 and 3 score 0.5 against each other. At threshold 0.6
    row 0 takes row 1 and nothing else is merged: 2 rows are flagged. At
    threshold 0.9 row 1 is free, becomes an anchor and takes rows 2 and 3:
    3 rows are flagged. *)
Lemma raising_threshold_flags_more :
  (0 <= 6 # 10)%Q ∧ (6 # 10 <= 9 # 10)%Q ∧ (9 # 10 <= 1)%Q
  ∧ find_duplicates table_chain (6 # 10) 1 = [{[0; 1]}]
  ∧ find_duplicates table_chain (9 # 10) 1 = [{[1; 2; 3]}]
  ∧ ¬ (n_duplicates (find_duplicates table_chain (9 # 10) 1)
       ≤ n_duplicates (find_duplicates table_chain (6 # 10) 1)).
Proof.
  split_and!; [unfold Qle; simpl; lia..|vm_compute; reflexivity|vm_compute; reflexivity|].
  vm_compute. lia.
Qed.

(** C4, amended. No threshold flags more rows than a threshold of 0 (or
    below), at which every row of every retained block is flagged. *)
Theorem n_duplicates_le_lowest df leading_chars t1 t2 :
  (t1 <= 0)%Q →
  n_duplicates (find_duplicates df t2 leading_chars)
  ≤ n_duplicates (find_duplicates df t1 leading_chars)
  ∧ n_duplicates (find_duplicates df t1 leading_chars)
    = rows_in_blocks (get_comparison_groups df leading_chars).
Proof.
  intros Ht1.
  assert (Hlow : n_duplicates (find_duplicates df t1 leading_chars)
                 = rows_in_blocks (get_comparison_groups df leading_chars)).
  { rewrite find_duplicates_low_threshold by done.
    rewrite <- (map_map snd list_to_set), n_duplicates_blocks.
    - unfold rows_in_blocks. by rewrite map_map.
    - apply blocks_ok_NoDup, groups_blocks_ok. }
  split; [|done]. rewrite Hlow. unfold rows_in_blocks.
  rewrite <- (map_map snd length).
  apply clusters_ok_count, find_duplicates_run_ok.
Qed.

Lemma n_duplicates_le_lowest_witness :
  n_duplicates (find_duplicates table_chain (9 # 10) 1)
  ≤ n_duplicates (find_duplicates table_chain 0 1)
  ∧ n_duplicates (find_duplicates table_chain 0 1)
    = rows_in_blocks (get_comparison_groups table_chain 1).
Proof.
  apply (n_duplicates_le_lowest table_chain 1 0 (9 # 10)). unfold Qle. simpl. lia.
Defined.

(** ** C7 *)

(** C7. The similarity of two rows does not depend on their order. *)
Theorem calculate_similarity_symmetric row1 row2 :
  calculate_similarity row1 row2 = calculate_similarity row2 row1.
Proof.
  unfold calculate_similarity. f_equal. apply FuzzFacts.token_set_ratio_comm.
Qed.

(** ** C8 *)




(** ** C10 *)

Lemma comparison_text_all_missing r :
  Forall (λ val, notna val = false) r → comparison_text r = "".
Proof.
  intros H. unfold comparison_text.
  replace (List.filter notna r) with (@nil cell); [done|].
  induction H as [|v r Hv _ IH]; simpl; [done|]. by rewrite Hv.
Qed.

(** C10. Two rows whose fields are all missing have similarity 0, which is
    below every positive threshold. *)
Theorem all_missing_not_similar row1 row2 threshold :
  Forall (λ val, notna val = false) row1 →
  Forall (λ val, notna val = false) row2 →
  (0 < threshold)%Q →
  (calculate_similarity row1 row2 == 0)%Q
  ∧ Qle_bool threshold (calculate_similarity row1 row2) = false.
Proof.
  intros H1 H2 Ht. unfold calculate_similarity.
  rewrite (comparison_text_all_missing row1 H1), (comparison_text_all_missing row2 H2).
  rewrite FuzzFacts.token_set_ratio_no_tokens by reflexivity.
  split; [reflexivity|].
  apply not_true_is_false. intros Hle%Qle_bool_iff.
  assert (H0 : (0 # 100 == 0)%Q) by reflexivity. lra.
Qed.

Lemma all_missing_not_similar_witness :
  (calculate_similarity [NaN; NaN] [NaN] == 0)%Q
  ∧ Qle_bool (1 # 100) (calculate_similarity [NaN; NaN] [NaN]) = false.
Proof.
  apply (all_missing_not_similar [NaN; NaN] [NaN] (1 # 100)).
  - repeat constructor.
  - repeat constructor.
  - reflexivity.
Defined.

(** ** C9 *)

(** C9. After the annotation of a table, a row that is in no cluster has
    [duplicate_group = -1] and an empty [duplicate_rows]; a row of the
    cluster at position [i] of the returned list has
    [duplicate_group = i + 1], and its [duplicate_rows] lists, separated by
    [", "], the 1-based numbers of the members of that cluster (the row
    itself among them) in increasing order. *)
Theorem annotate_table_rows df threshold leading_chars r :
  r < length df →
  ((∀ c, c ∈ find_duplicates df threshold leading_chars → r ∉ c) →
   fst (annotate_table df threshold leading_chars) !! r = Some (-1)%Z
   ∧ snd (annotate_table df threshold leading_chars) !! r = Some "")
  ∧ (∀ i c, find_duplicates df threshold leading_chars !! i = Some c → r ∈ c →
       fst (annotate_table df threshold leading_chars) !! r = Some (Z.of_nat i + 1)%Z
       ∧ ∃ members,
           StronglySorted (≤) members ∧ NoDup members
           ∧ (∀ x, x ∈ members ↔ x ∈ c) ∧ r ∈ members
           ∧ snd (annotate_table df threshold leading_chars) !! r
             = Some (Py.join ", " (map (λ idx, Py.str_int (Z.of_nat idx + 1)) members))).
Proof.
  intros Hr. unfold annotate_table, annotate.
  pose proof (find_duplicates_pairwise_disjoint df threshold leading_chars) as Hdisj.
  destruct (annotate_fold_spec (fresh_columns (length df))
              (find_duplicates df threshold leading_chars) r Hdisj) as [Hout Hin].
  cbv zeta in Hout, Hin. split.
  - intros Hnone. destruct (Hout Hnone) as [-> ->]. simpl.
    rewrite !lookup_gset_to_gmap, !option_guard_True; [done|..];
      apply elem_of_set_seq; lia.
  - intros i c Hi Hc. destruct (Hin i c Hi Hc) as [-> Hrows]. split; [done|].
    exists (Py.sorted_nat c). destruct (sorted_nat_sorted c).
    split_and!; [done|done|apply elem_of_sorted_nat|by apply elem_of_sorted_nat|done].
Qed.

Lemma annotate_table_rows_witness :
  fst (annotate_table table_identical (9 # 10) 3) !! 1 = Some 1%Z
  ∧ ∃ members,
      StronglySorted (≤) members ∧ NoDup members
      ∧ (∀ x, x ∈ members ↔ x ∈ ({[0; 1]} : gset nat)) ∧ 1 ∈ members
      ∧ snd (annotate_table table_identical (9 # 10) 3) !! 1
        = Some (Py.join ", " (map (λ idx, Py.str_int (Z.of_nat idx + 1)) members)).
Proof.
  destruct (annotate_table_rows table_identical (9 # 10) 3 1) as [_ H].
  - simpl. lia.
  - apply (H 0 {[0; 1]}).
    + vm_compute. reflexivity.
    + apply (bool_decide_unpack _). vm_compute. exact I.
Defined.

(** * Further properties of the code *)

(** ** The shape of a cluster *)

Lemma block_sorted df leading_chars key :
  StronglySorted lt (block df leading_chars key).
Proof.
  unfold block. generalize 0 as start.
  induction (length df) as [|n IH]; intros start; simpl; [constructor|].
  destruct (in_block _ _ _); [|apply IH].
  apply StronglySorted_cons. split; [|apply IH].
  apply Forall_forall. intros x Hx.
  apply list_elem_of_In, List.filter_In in Hx as [Hx%in_seq _]. lia.
Qed.

Lemma StronglySorted_lt_NoDup (l : list nat) : StronglySorted lt l → NoDup l.
Proof.
  induction l as [|x l IH]; [constructor|].
  intros [Hx Hl]%StronglySorted_cons. apply NoDup_cons. split; [|auto].
  intros Hin. rewrite Forall_forall in Hx. specialize (Hx x Hin). lia.
Qed.

Section shape.
Context (df : dataframe) (threshold : Q).

(** Whatever the inner loop adds is a later row that reaches the
    threshold. *)
Lemma compare_loop_similar row_i l cg P n cg' P' n' :
  fold_left (compare_step df threshold row_i) l (cg, P, n) = (cg', P', n') →
  ∀ x, x ∈ cg' →
       x ∈ cg ∨ (x ∈ l ∧ Qle_bool threshold
                            (calculate_similarity row_i (iloc df x)) = true).
Proof.
  revert cg P n. induction l as [|y l IH]; intros cg P n H x Hx; cbn [fold_left] in H.
  { injection H as <- <- <-. by left. }
  rewrite compare_step_eq in H.
  destruct (decide (y ∈ P)).
  - destruct (IH _ _ _ H x Hx) as [?|[? ?]]; [by left|right; split; [by right|done]].
  - destruct (Qle_bool _ _) eqn:E.
    + destruct (IH _ _ _ H x Hx) as [Hc|[? ?]]; [|right; split; [by right|done]].
      apply elem_of_union in Hc as [->%elem_of_singleton|?]; [|by left].
      right. split; [left|done].
    + destruct (IH _ _ _ H x Hx) as [?|[? ?]]; [by left|right; split; [by right|done]].
Qed.

Lemma anchor_pass_around st idx1 later :
  Forall (lt idx1) later →
  Forall (around df threshold) (duplicate_groups st) →
  Forall (around df threshold) (duplicate_groups (anchor_pass df threshold st idx1 later)).
Proof.
  intros Hlt Hall. unfold anchor_pass, anchor_step.
  destruct (decide _); [done|]. simpl drop. rewrite drop_0.
  destruct (fold_left _ _ _) as [[cg' P'] n'] eqn:E. simpl.
  destruct (1 <? size cg'); [|done].
  apply Forall_app. split; [done|]. apply Forall_singleton.
  pose proof (compare_loop_similar _ _ _ _ _ _ _ _ E) as Hsim.
  destruct (compare_loop_spec _ _ _ _ _ _ _ _ _ _ E) as (N & _ & _ & -> & _ & _).
  rewrite Forall_forall in Hlt.
  exists idx1. split_and!.
  - set_solver.
  - intros j Hj. destruct (Hsim j Hj) as [->%elem_of_singleton|[Hin _]]; [lia|].
    specialize (Hlt j Hin). lia.
  - intros j Hj Hne. destruct (Hsim j Hj) as [->%elem_of_singleton|[_ ?]]; done.
Qed.

Lemma process_group_around st l :
  StronglySorted lt l →
  Forall (around df threshold) (duplicate_groups st) →
  Forall (around df threshold) (duplicate_groups (process_group df threshold st l)).
Proof.
  revert st. induction l as [|idx1 later IH]; intros st Hl Hall; [done|].
  apply StronglySorted_cons in Hl as [Hlt Hl].
  rewrite process_group_cons. apply IH; [done|]. by apply anchor_pass_around.
Qed.

Lemma run_around st gs :
  Forall (StronglySorted lt) gs →
  Forall (around df threshold) (duplicate_groups st) →
  Forall (around df threshold) (duplicate_groups (fold_left (process_group df threshold) gs st)).
Proof.
  revert st. induction gs as [|g gs IH]; intros st Hgs Hall; [done|].
  apply Forall_cons in Hgs as [Hg Hgs]. cbn [fold_left].
  apply IH; [done|]. by apply process_group_around.
Qed.

Lemma find_duplicates_around leading_chars :
  Forall (around df threshold) (find_duplicates df threshold leading_chars).
Proof.
  unfold find_duplicates, find_duplicates_run.
  apply run_around; [|constructor].
  apply Forall_forall. intros g [[k v] [-> Hkv]]%list_elem_of_fmap_1.
  apply get_comparison_groups_spec in Hkv as [-> _]. apply block_sorted.
Qed.

(** X1. Every cluster is a star around its first row: the smallest row
    index [a] of the cluster is such that every other member has a
    similarity with row [a] that reaches the threshold. *)
Theorem cluster_members_similar_to_first leading_chars c :
  c ∈ find_duplicates df threshold leading_chars →
  ∃ a, a ∈ c ∧ (∀ j, j ∈ c → a ≤ j)
       ∧ ∀ j, j ∈ c → j ≠ a →
              (threshold <= calculate_similarity (iloc df a) (iloc df j))%Q.
Proof.
  intros Hc. pose proof (find_duplicates_around leading_chars) as Hall.
  rewrite Forall_forall in Hall. destruct (Hall c Hc) as (a & Ha & Hmin & Hsim).
  exists a. split_and!; [done..|]. intros j Hj Hne. by apply Qle_bool_iff, Hsim.
Qed.

End shape.

Lemma cluster_members_similar_to_first_witness :
  ∃ a, a ∈ ({[1; 2; 3]} : gset nat) ∧ (∀ j, j ∈ ({[1; 2; 3]} : gset nat) → a ≤ j)
       ∧ ∀ j, j ∈ ({[1; 2; 3]} : gset nat) → j ≠ a →
              (9 # 10 <= calculate_similarity (iloc table_chain a) (iloc table_chain j))%Q.
Proof.
  apply (cluster_members_similar_to_first table_chain (9 # 10) 1).
  vm_compute. left.
Defined.

(** ** Rows that stay unique *)

Section unique.
Context (df : dataframe) (threshold : Q).










End unique.


(** ** The comparison statistics *)

Lemma pairs_0 : pairs 0 = 0.
Proof. reflexivity. Qed.

Lemma pairs_add a b : pairs a + pairs b ≤ pairs (a + b).
Proof.
  induction a as [|a IH]; [rewrite pairs_0; simpl; lia|].
  change (S a + b) with (S (a + b)). rewrite !pairs_S. lia.
Qed.

Lemma pairs_mono m n : m ≤ n → pairs m ≤ pairs n.
Proof. induction 1 as [|n _ IH]; [done|]. rewrite pairs_S. lia. Qed.

Lemma pairs_pos n : 2 ≤ n → 1 ≤ pairs n.
Proof.
  intros H. destruct n as [|[|n]]; [lia..|]. rewrite pairs_S. lia.
Qed.

Lemma sum_pairs_le (ls : list nat) :
  sum_list (map pairs ls) ≤ pairs (sum_list ls).
Proof.
  induction ls as [|n ls IH]; [done|].
  change (pairs n + sum_list (map pairs ls) ≤ pairs (n + sum_list ls)).
  etrans; [|apply pairs_add]. lia.
Qed.

Lemma blocks_ok_size (gs : list (list nat)) :
  blocks_ok gs →
  size (⋃ (map list_to_set gs : list (gset nat))) = sum_list (map length gs).
Proof.
  induction gs as [|g gs IH]; [done|]. intros (Hnd & Hdisj & Hok).
  change (size (list_to_set g ∪ ⋃ (map list_to_set gs : list (gset nat)))
          = length g + sum_list (map length gs)).
  rewrite size_union, size_list_to_set, IH; [done..|].
  intros x Hx%elem_of_list_to_set [X [HX Hx']]%elem_of_union_list.
  apply list_elem_of_fmap in HX as [g' [-> Hg']].
  apply elem_of_list_to_set in Hx'. by apply (Hdisj g' x).
Qed.

(** No row is in two blocks: the blocks hold at most as many rows as the
    table. *)
Lemma rows_in_blocks_le df leading_chars :
  rows_in_blocks (get_comparison_groups df leading_chars) ≤ length df.
Proof.
  unfold rows_in_blocks. rewrite <- (map_map snd length).
  rewrite <- blocks_ok_size by apply groups_blocks_ok.
  rewrite <- (size_set_seq (C := gset nat) 0 (length df)).
  apply subseteq_size.
  intros x [X [HX Hx]]%elem_of_union_list.
  apply list_elem_of_fmap in HX as [g [-> Hg]].
  apply list_elem_of_fmap in Hg as [[k v] [-> Hkv]]. simpl in Hx.
  apply elem_of_list_to_set in Hx. apply elem_of_set_seq.
  pose proof (groups_in_range _ _ _ _ _ Hkv Hx). lia.
Qed.

Lemma total_comparisons_le_possible df leading_chars :
  calculate_total_comparisons (get_comparison_groups df leading_chars)
  ≤ total_possible df.
Proof.
  rewrite calculate_total_comparisons_sum.
  rewrite <- (map_map (λ kv, length (snd kv)) pairs).
  etrans; [apply sum_pairs_le|]. apply pairs_mono, rows_in_blocks_le.
Qed.

(** X3. The percentage line of [main] divides by the number of possible
    comparisons: it fails with a division by zero exactly on the tables
    with fewer than two rows. *)
Theorem comparison_statistics_fails df leading_chars :
  comparison_statistics df leading_chars = None ↔ length df < 2.
Proof.
  unfold comparison_statistics, reduction_percent, total_possible.
  fold (pairs (length df)).
  destruct (Nat.eqb_spec (pairs (length df)) 0) as [H0|H0]; split; try done.
  - intros _. destruct (decide (length df < 2)); [done|].
    pose proof (pairs_pos (length df)). lia.
  - intros Hlt. destruct (length df) as [|[|n]]; [done..|lia].
Qed.

(** X4. On a table of two rows or more, the announced number of
    comparisons is at most the number of possible comparisons, and the
    percentage lies between 0 and 100. *)
Theorem comparison_statistics_bounds df leading_chars :
  2 ≤ length df →
  ∃ percent,
    comparison_statistics df leading_chars
    = Some (calculate_total_comparisons (get_comparison_groups df leading_chars),
            total_possible df, percent)
    ∧ calculate_total_comparisons (get_comparison_groups df leading_chars)
      ≤ total_possible df
    ∧ (0 <= percent)%Q ∧ (percent <= 100)%Q.
Proof.
  intros Hlen.
  pose proof (total_comparisons_le_possible df leading_chars) as Hle.
  unfold comparison_statistics, reduction_percent.
  assert (Hpos : 1 ≤ total_possible df) by by apply pairs_pos.
  destruct (Nat.eqb_spec (total_possible df) 0) as [H0|H0]; [lia|].
  eexists. split; [reflexivity|]. split; [done|].
  set (tc := calculate_total_comparisons _) in *.
  assert (H1 : (0 <= Z.of_nat tc # Pos.of_nat (total_possible df))%Q).
  { unfold Qle. simpl. lia. }
  assert (H2 : (Z.of_nat tc # Pos.of_nat (total_possible df) <= 1)%Q).
  { unfold Qle. simpl. lia. }
  split; lra.
Qed.

Lemma comparison_statistics_bounds_witness :
  ∃ percent,
    comparison_statistics table_chain 1
    = Some (calculate_total_comparisons (get_comparison_groups table_chain 1),
            total_possible table_chain, percent)
    ∧ calculate_total_comparisons (get_comparison_groups table_chain 1)
      ≤ total_possible table_chain
    ∧ (0 <= percent)%Q ∧ (percent <= 100)%Q.
Proof. apply (comparison_statistics_bounds table_chain 1). simpl. lia. Defined.

(** ** The summary line and the annotated table *)

Lemma clusters_in_range df threshold leading_chars c x :
  c ∈ find_duplicates df threshold leading_chars → x ∈ c → x < length df.
Proof.
  intros Hc Hx.
  destruct (find_duplicates_run_ok df threshold leading_chars) as (_ & _ & Hall).
  rewrite Forall_forall in Hall.
  destruct (Hall c Hc) as (_ & g & Hg & Hsub).
  apply list_elem_of_fmap in Hg as [[k v] [-> Hkv]].
  eapply groups_in_range; [done|]. by apply Hsub.
Qed.

(** X5. The summary "Found n records in g duplicate groups": the number of
    records is at least twice the number of groups and at most the number
    of rows of the table. *)
Theorem summary_bounds df threshold leading_chars :
  2 * length (find_duplicates df threshold leading_chars)
  ≤ n_duplicates (find_duplicates df threshold leading_chars)
  ∧ n_duplicates (find_duplicates df threshold leading_chars) ≤ length df.
Proof.
  split.
  - destruct (find_duplicates_run_ok df threshold leading_chars) as (_ & _ & Hall).
    fold (find_duplicates df threshold leading_chars) in Hall.
    unfold n_duplicates.
    induction Hall as [|c cs [Hc _] _ IH]; [done|].
    change (2 * S (length cs) ≤ size c + sum_list (map size cs)). lia.
  - etrans; [|apply (rows_in_blocks_le df leading_chars)].
    unfold rows_in_blocks. rewrite <- (map_map snd length).
    apply clusters_ok_count, find_duplicates_run_ok.
Qed.

Lemma write_rows_dom (v : Z) (w : string) (l : list nat) (ann : annotation) :
  let ann' := fold_left (λ (a : annotation) idx, (<[idx := v]> (fst a), <[idx := w]> (snd a)))
                        l ann in
  dom (fst ann') = list_to_set l ∪ dom (fst ann)
  ∧ dom (snd ann') = list_to_set l ∪ dom (snd ann).
Proof.
  revert ann. induction l as [|idx l IH]; intros ann; cbn [fold_left].
  { cbv zeta. split; set_solver. }
  destruct (IH (<[idx := v]> (fst ann), <[idx := w]> (snd ann))) as [-> ->].
  simpl. rewrite !dom_insert_L. split; set_solver.
Qed.

Lemma annotate_fold_dom (ann0 : annotation) (cs : list (gset nat)) :
  let ann := fold_left annotate_group (Py.enumerate cs) ann0 in
  dom (fst ann) = ⋃ cs ∪ dom (fst ann0) ∧ dom (snd ann) = ⋃ cs ∪ dom (snd ann0).
Proof.
  cbv zeta. induction cs as [|c cs IH] using rev_ind.
  { simpl. split; set_solver. }
  rewrite enumerate_snoc, fold_left_app. cbn [fold_left].
  destruct IH as [IH1 IH2]. unfold annotate_group at 1 3.
  destruct (write_rows_dom (Z.of_nat (length cs) + 1)%Z (rows_str (Py.sorted_nat c))
              (Py.sorted_nat c) (fold_left annotate_group (Py.enumerate cs) ann0))
    as [H1 H2].
  cbv zeta in H1, H2.
  assert (Hc : (list_to_set (Py.sorted_nat c) : gset nat) = c).
  { apply set_eq. intros x. by rewrite elem_of_list_to_set, elem_of_sorted_nat. }
  rewrite Hc in H1, H2. rewrite union_list_app_L. simpl.
  split.
  - etrans; [apply H1|]. rewrite IH1. set_solver.
  - etrans; [apply H2|]. rewrite IH2. set_solver.
Qed.

Lemma in_some_cluster (cs : list (gset nat)) r :
  (∃ c, c ∈ cs ∧ r ∈ c) ∨ (∀ c, c ∈ cs → r ∉ c).
Proof.
  destruct (decide (r ∈ ⋃ cs)) as [H|H].
  - left. by apply elem_of_union_list.
  - right. intros c Hc Hr. apply H, elem_of_union_list. eauto.
Qed.

Lemma fresh_columns_dom_group n :
  dom (fst (fresh_columns n)) = (set_seq 0 n : gset nat).
Proof. apply dom_gset_to_gmap. Qed.

Lemma fresh_columns_dom_rows n :
  dom (snd (fresh_columns n)) = (set_seq 0 n : gset nat).
Proof. apply dom_gset_to_gmap. Qed.

(** X6. The annotation adds no row to the table: both new columns have a
    value at exactly the rows 0 .. len(df)-1; [duplicate_group] is -1 at
    exactly the rows that are in no cluster; and the number of records of
    the summary line is the number of rows whose [duplicate_group] is not
    -1. *)
Theorem annotation_marks_flagged df threshold leading_chars :
  dom (fst (annotate_table df threshold leading_chars)) = set_seq 0 (length df)
  ∧ dom (snd (annotate_table df threshold leading_chars)) = set_seq 0 (length df)
  ∧ (∀ r, fst (annotate_table df threshold leading_chars) !! r = Some (-1)%Z
          ↔ r < length df
            ∧ ∀ c, c ∈ find_duplicates df threshold leading_chars → r ∉ c)
  ∧ n_duplicates (find_duplicates df threshold leading_chars)
    = length (List.filter
                (λ r, bool_decide
                        (fst (annotate_table df threshold leading_chars) !! r
                         ≠ Some (-1)%Z))
                (seq 0 (length df))).
Proof.
  pose proof (find_duplicates_pairwise_disjoint df threshold leading_chars) as Hdisj.
  assert (Hrange : ⋃ find_duplicates df threshold leading_chars
                   ⊆ (set_seq 0 (length df) : gset nat)).
  { intros x [c [Hc Hx]]%elem_of_union_list. apply elem_of_set_seq.
    pose proof (clusters_in_range _ _ _ _ _ Hc Hx). lia. }
  destruct (annotate_fold_dom (fresh_columns (length df))
              (find_duplicates df threshold leading_chars)) as [Hd1 Hd2].
  cbv zeta in Hd1, Hd2. rewrite fresh_columns_dom_group in Hd1.
  rewrite fresh_columns_dom_rows in Hd2.
  assert (Hminus : ∀ r,
            fst (annotate_table df threshold leading_chars) !! r = Some (-1)%Z
            ↔ r < length df
              ∧ ∀ c, c ∈ find_duplicates df threshold leading_chars → r ∉ c).
  { intros r.
    destruct (annotate_fold_spec (fresh_columns (length df))
                (find_duplicates df threshold leading_chars) r Hdisj) as [Hout Hin].
    cbv zeta in Hout, Hin. unfold annotate_table, annotate.
    destruct (in_some_cluster (find_duplicates df threshold leading_chars) r)
      as [(c & Hc & Hr)|Hnone].
    - apply list_elem_of_lookup in Hc as [i Hi].
      destruct (Hin i c Hi Hr) as [-> _]. split.
      + intros ?. simplify_eq. lia.
      + intros [_ Hnone]. destruct (Hnone c); [by eapply list_elem_of_lookup_2|done].
    - destruct (Hout Hnone) as [-> _]. simpl. rewrite lookup_gset_to_gmap.
      destruct (decide (r < length df)) as [Hlt|Hge].
      + rewrite option_guard_True by (apply elem_of_set_seq; lia). done.
      + rewrite option_guard_False by (rewrite elem_of_set_seq; lia).
        split; [done|]. intros [? _]. lia. }
  split_and!.
  - unfold annotate_table, annotate. rewrite Hd1. set_solver.
  - unfold annotate_table, annotate. rewrite Hd2. set_solver.
  - done.
  - rewrite n_duplicates_disjoint by done.
    rewrite <- (size_list_to_set (C := gset nat)).
    2:{ apply NoDup_ListNoDup, List.NoDup_filter, NoDup_ListNoDup, NoDup_seq. }
    f_equal. apply set_eq. intros r.
    rewrite elem_of_list_to_set, list_elem_of_In, List.filter_In, in_seq,
      bool_decide_eq_true, Hminus, elem_of_union_list.
    split.
    + intros (c & Hc & Hr). pose proof (clusters_in_range _ _ _ _ _ Hc Hr).
      split; [lia|]. intros [_ Hnone]. by apply (Hnone c).
    + intros [Hlt Hnot].
      destruct (in_some_cluster (find_duplicates df threshold leading_chars) r)
        as [?|Hnone]; [done|].
      destruct Hnot. split; [lia|done].
Qed.

(** X7. In the annotated table, [duplicate_rows] of a clustered row lists,
    in increasing order, exactly the rows that carry the same
    [duplicate_group] number; all rows of a cluster carry the same
    [duplicate_rows] text. *)
Theorem duplicate_rows_lists_group df threshold leading_chars i c r :
  find_duplicates df threshold leading_chars !! i = Some c → r ∈ c →
  ∃ members,
    StronglySorted (≤) members ∧ NoDup members
    ∧ (∀ x, x ∈ members
            ↔ fst (annotate_table df threshold leading_chars) !! x
              = Some (Z.of_nat i + 1)%Z)
    ∧ ∀ x, x ∈ members →
           snd (annotate_table df threshold leading_chars) !! x
           = Some (Py.join ", " (map (λ idx, Py.str_int (Z.of_nat idx + 1)) members)).
Proof.
  intros Hi Hr.
  pose proof (find_duplicates_pairwise_disjoint df threshold leading_chars) as Hdisj.
  exists (Py.sorted_nat c). destruct (sorted_nat_sorted c) as [Hs Hnd].
  split_and!; [done|done| |].
  - intros x. rewrite elem_of_sorted_nat.
    destruct (annotate_fold_spec (fresh_columns (length df))
                (find_duplicates df threshold leading_chars) x Hdisj) as [Hout Hin].
    cbv zeta in Hout, Hin. unfold annotate_table, annotate. split.
    + intros Hx. by destruct (Hin i c Hi Hx) as [-> _].
    + intros Hx.
      destruct (in_some_cluster (find_duplicates df threshold leading_chars) x)
        as [(c' & Hc' & Hxc')|Hnone].
      * apply list_elem_of_lookup in Hc' as [i' Hi'].
        destruct (Hin i' c' Hi' Hxc') as [Hg _]. rewrite Hg in Hx.
        assert (i' = i) as -> by (simplify_eq; lia). by simplify_eq.
      * destruct (Hout Hnone) as [Hg _]. rewrite Hg in Hx. simpl in Hx.
        rewrite lookup_gset_to_gmap in Hx.
        destruct (decide (x ∈ (set_seq 0 (length df) : gset nat))).
        -- rewrite option_guard_True in Hx by done. simplify_eq. lia.
        -- by rewrite option_guard_False in Hx.
  - intros x Hx%elem_of_sorted_nat.
    destruct (annotate_fold_spec (fresh_columns (length df))
                (find_duplicates df threshold leading_chars) x Hdisj) as [_ Hin].
    cbv zeta in Hin. destruct (Hin i c Hi Hx) as [_ Hrows].
    unfold annotate_table, annotate. by rewrite Hrows.
Qed.

Lemma duplicate_rows_lists_group_witness :
  ∃ members,
    StronglySorted (≤) members ∧ NoDup members
    ∧ (∀ x, x ∈ members
            ↔ fst (annotate_table table_chain (9 # 10) 1) !! x = Some (Z.of_nat 0 + 1)%Z)
    ∧ ∀ x, x ∈ members →
           snd (annotate_table table_chain (9 # 10) 1) !! x
           = Some (Py.join ", " (map (λ idx, Py.str_int (Z.of_nat idx + 1)) members)).
Proof.
  apply (duplicate_rows_lists_group table_chain (9 # 10) 1 0 {[1; 2; 3]} 2).
  - vm_compute. reflexivity.
  - apply (bool_decide_unpack _). vm_compute. exact I.
Defined.

(** ** The progress reports *)

Lemma progress_events_refl total a : progress_events total a a = [].
Proof. unfold progress_events. by rewrite Nat.sub_diag. Qed.

Lemma progress_events_split total a b c :
  a ≤ b → b ≤ c →
  progress_events total a c = progress_events total a b ++ progress_events total b c.
Proof.
  intros Hab Hbc. unfold progress_events.
  replace (c - a) with ((b - a) + (c - b)) by lia.
  rewrite seq_app, List.filter_app, flat_map_app.
  by replace (S a + (b - a)) with (S b) by lia.
Qed.

Lemma Qmin_fraction (c total : nat) :
  c ≤ total → total ≠ 0 →
  Qmin (Z.of_nat c # Pos.of_nat total) 1 = (Z.of_nat c # Pos.of_nat total).
Proof.
  intros Hle Hne. unfold Qmin, GenericMinMax.gmin.
  destruct (Qcompare _ _) eqn:E; [done..|].
  rewrite <- Qgt_alt in E. unfold Qlt in E. simpl in E. lia.
Qed.

Lemma report_spec total n log :
  S n ≤ total →
  report total (S n) log = Some (log ++ progress_events total n (S n)).
Proof.
  intros Hle. unfold report, progress_events.
  replace (S n - n) with 1 by lia. cbn [seq List.filter].
  destruct (Nat.eqb (S n mod 100) 0).
  - destruct (Nat.eqb_spec total 0) as [?|Hne]; [lia|].
    cbv zeta. by rewrite Qmin_fraction.
  - simpl. by rewrite app_nil_r.
Qed.

Section progress.
Context (df : dataframe) (threshold : Q) (total : nat).

Lemma compare_loop_count_mono row_i l cg P n cg' P' n' :
  fold_left (compare_step df threshold row_i) l (cg, P, n) = (cg', P', n') → n ≤ n'.
Proof.
  intros H. destruct (compare_loop_spec _ _ _ _ _ _ _ _ _ _ H) as (_ & _ & _ & _ & _ & ?).
  lia.
Qed.

(** As long as the counter stays within [total], the logged inner loop
    computes what the inner loop computes and reports at the multiples of
    100 it passes. *)
Lemma compare_loop_logged row_i l cg P n log cg' P' n' :
  fold_left (compare_step df threshold row_i) l (cg, P, n) = (cg', P', n') →
  n' ≤ total →
  fold_left (compare_step_logged df threshold total row_i) l (Some (cg, P, n, log))
  = Some (cg', P', n', log ++ progress_events total n n').
Proof.
  revert cg P n log. induction l as [|x l IH]; intros cg P n log H Hle;
    cbn [fold_left] in *.
  { injection H as <- <- <-. by rewrite progress_events_refl, app_nil_r. }
  rewrite compare_step_eq in H. unfold compare_step_logged at 2.
  destruct (decide (x ∈ P)); [by apply IH|].
  cbv zeta.
  assert (Hn : S n ≤ n').
  { destruct (Qle_bool _ _); by apply compare_loop_count_mono in H. }
  rewrite report_spec by lia.
  destruct (Qle_bool _ _).
  - rewrite (IH _ _ _ _ H Hle). rewrite <- app_assoc.
    by rewrite <- (progress_events_split total n (S n) n') by lia.
  - rewrite (IH _ _ _ _ H Hle). rewrite <- app_assoc.
    by rewrite <- (progress_events_split total n (S n) n') by lia.
Qed.

Lemma anchor_step_count_mono g st it :
  comparison_count st ≤ comparison_count (anchor_step df threshold g st it).
Proof.
  destruct it as [i idx1]. unfold anchor_step. destruct (decide _); [done|].
  destruct (fold_left _ _ _) as [[cg' P'] n'] eqn:E. simpl.
  by apply compare_loop_count_mono in E.
Qed.

Lemma anchors_count_mono g its st :
  comparison_count st
  ≤ comparison_count (fold_left (anchor_step df threshold g) its st).
Proof.
  revert st. induction its as [|it its IH]; intros st; [done|].
  cbn [fold_left]. etrans; [apply (anchor_step_count_mono g st it)|apply IH].
Qed.

Lemma anchor_step_logged_spec g st log it :
  comparison_count (anchor_step df threshold g st it) ≤ total →
  anchor_step_logged df threshold total g (Some (st, log)) it
  = Some (anchor_step df threshold g st it,
          log ++ progress_events total (comparison_count st)
                   (comparison_count (anchor_step df threshold g st it))).
Proof.
  destruct it as [i idx1]. unfold anchor_step, anchor_step_logged.
  destruct (decide _).
  { intros _. by rewrite progress_events_refl, app_nil_r. }
  destruct (fold_left (compare_step _ _ _) _ _) as [[cg' P'] n'] eqn:E. simpl.
  intros Hle. by rewrite (compare_loop_logged _ _ _ _ _ log _ _ _ E Hle).
Qed.

Lemma anchors_logged g its st log :
  comparison_count (fold_left (anchor_step df threshold g) its st) ≤ total →
  fold_left (anchor_step_logged df threshold total g) its (Some (st, log))
  = Some (fold_left (anchor_step df threshold g) its st,
          log ++ progress_events total (comparison_count st)
                   (comparison_count (fold_left (anchor_step df threshold g) its st))).
Proof.
  revert st log. induction its as [|it its IH]; intros st log Hle; cbn [fold_left] in *.
  { by rewrite progress_events_refl, app_nil_r. }
  pose proof (anchors_count_mono g its (anchor_step df threshold g st it)) as Hmono.
  pose proof (anchor_step_count_mono g st it) as Hstep.
  rewrite anchor_step_logged_spec by lia.
  rewrite IH by done. rewrite <- app_assoc.
  by rewrite <- progress_events_split.
Qed.

Lemma process_group_count_mono st g :
  comparison_count st ≤ comparison_count (process_group df threshold st g).
Proof. apply anchors_count_mono. Qed.

Lemma run_count_mono st gs :
  comparison_count st
  ≤ comparison_count (fold_left (process_group df threshold) gs st).
Proof.
  revert st. induction gs as [|g gs IH]; intros st; [done|].
  cbn [fold_left]. etrans; [apply (process_group_count_mono st g)|apply IH].
Qed.

Lemma run_logged gs st log :
  comparison_count (fold_left (process_group df threshold) gs st) ≤ total →
  fold_left (process_group_logged df threshold total) gs (Some (st, log))
  = Some (fold_left (process_group df threshold) gs st,
          log ++ progress_events total (comparison_count st)
                   (comparison_count (fold_left (process_group df threshold) gs st))).
Proof.
  revert st log. induction gs as [|g gs IH]; intros st log Hle; cbn [fold_left] in *.
  { by rewrite progress_events_refl, app_nil_r. }
  pose proof (run_count_mono (process_group df threshold st g) gs) as Hmono.
  pose proof (process_group_count_mono st g) as Hstep.
  unfold process_group_logged at 2. rewrite anchors_logged by (fold (process_group df threshold st g); lia).
  fold (process_group df threshold st g).
  rewrite IH by done. rewrite <- app_assoc.
  by rewrite <- progress_events_split.
Qed.

End progress.

(** The reports made up to a counter of [n] carry multiples of 100 between
    100 and [n], and progress values in (0, 1]. *)
Lemma progress_events_sound total n :
  n ≤ total →
  Forall (λ e, match e with
               | Progress value => (0 < value)%Q ∧ (value <= 1)%Q
               | Status c t => t = total ∧ c mod 100 = 0 ∧ 100 ≤ c ≤ n
               | Complete => False
               end)
         (progress_events total 0 n).
Proof.
  intros Hle. unfold progress_events. rewrite Nat.sub_0_r.
  apply Forall_forall. intros e He.
  apply list_elem_of_In, in_flat_map in He as (c & Hc & He).
  apply List.filter_In in Hc as [Hc%in_seq Hmod%Nat.eqb_eq].
  assert (H100 : 100 ≤ c).
  { destruct (decide (c < 100)) as [Hlt|]; [|lia].
    rewrite Nat.mod_small in Hmod by done. lia. }
  destruct He as [<-|[<-|[]]].
  - split; unfold Qlt, Qle; simpl; lia.
  - split_and!; [done|done|lia|lia].
Qed.

(** X8. The progress reports never fail (the division by
    [total_comparisons] is only reached when the counter, hence the total,
    is at least 100) and do not change the result. The log is fixed by the
    final counter: the bar is set to 0, then at every multiple [c] of 100
    that the counter reaches to [c / total_comparisons], which lies in
    (0, 1] so that the cap at 1.0 never applies, and at the end to 1.0. *)
Theorem find_duplicates_logged_spec df threshold leading_chars :
  find_duplicates_logged df threshold leading_chars
  = Some (find_duplicates df threshold leading_chars,
          [Progress 0]
          ++ progress_events
               (calculate_total_comparisons (get_comparison_groups df leading_chars))
               0 (comparison_count (find_duplicates_run df threshold leading_chars))
          ++ [Progress 1; Complete])
  ∧ Forall (λ e, match e with
                 | Progress value => (0 < value)%Q ∧ (value <= 1)%Q
                 | Status c t =>
                     t = calculate_total_comparisons
                           (get_comparison_groups df leading_chars)
                     ∧ c mod 100 = 0
                     ∧ 100 ≤ c
                           ≤ comparison_count
                               (find_duplicates_run df threshold leading_chars)
                 | Complete => False
                 end)
           (progress_events
              (calculate_total_comparisons (get_comparison_groups df leading_chars))
              0 (comparison_count (find_duplicates_run df threshold leading_chars))).
Proof.
  assert (Hle : comparison_count (find_duplicates_run df threshold leading_chars)
                ≤ calculate_total_comparisons (get_comparison_groups df leading_chars)).
  { rewrite calculate_total_comparisons_sum. unfold find_duplicates_run.
    etrans; [apply run_count|]. simpl. by rewrite map_map. }
  split; [|by apply progress_events_sound].
  unfold find_duplicates_logged. cbv zeta.
  rewrite run_logged; [reflexivity|apply Hle].
Qed.

(** On [table_distinct] the counter passes 100 once. *)
Example progress_log_of_table_distinct :
  find_duplicates_logged table_distinct (9 # 10) 1
  = Some ([], [Progress 0; Progress (100 # 105); Status 100 105;
               Progress 1; Complete]).
Proof. vm_compute. reflexivity. Qed.

(** ** What the scorer and the blocking do not see *)

Lemma lower_char_ascii c :
  (N_of_ascii (Py.lower_char c) <? 128)%N = (N_of_ascii c <? 128)%N.
Proof. destruct c as [[] [] [] [] [] [] [] []]; reflexivity. Qed.

Lemma lower_char_isalnum c : Fuzz.isalnum (Py.lower_char c) = Fuzz.isalnum c.
Proof. destruct c as [[] [] [] [] [] [] [] []]; reflexivity. Qed.

Lemma lower_char_isspace c : Fuzz.isspace (Py.lower_char c) = Fuzz.isspace c.
Proof. destruct c as [[] [] [] [] [] [] [] []]; reflexivity. Qed.

Lemma lower_char_idem c : Py.lower_char (Py.lower_char c) = Py.lower_char c.
Proof. destruct c as [[] [] [] [] [] [] [] []]; reflexivity. Qed.

Lemma lower_idem s : Py.lower (Py.lower s) = Py.lower s.
Proof. induction s as [|c s IH]; simpl; [done|]. by rewrite lower_char_idem, IH. Qed.

Lemma ascii_only_lower s :
  Fuzz.ascii_only (Py.lower s) = Py.lower (Fuzz.ascii_only s).
Proof.
  induction s as [|c s IH]; simpl; [done|]. rewrite lower_char_ascii.
  destruct (N_of_ascii c <? 128)%N; simpl; by rewrite IH.
Qed.

Lemma replace_non_alnum_lower s :
  Fuzz.replace_non_alnum (Py.lower s) = Py.lower (Fuzz.replace_non_alnum s).
Proof.
  induction s as [|c s IH]; simpl; [done|]. rewrite lower_char_isalnum, IH.
  by destruct (Fuzz.isalnum c).
Qed.

Lemma lstrip_lower s : Fuzz.lstrip (Py.lower s) = Py.lower (Fuzz.lstrip s).
Proof.
  induction s as [|c s IH]; simpl; [done|]. rewrite lower_char_isspace.
  by destruct (Fuzz.isspace c).
Qed.

Lemma rstrip_lower s : Fuzz.rstrip (Py.lower s) = Py.lower (Fuzz.rstrip s).
Proof.
  induction s as [|c s IH]; simpl; [done|]. rewrite IH, lower_char_isspace.
  destruct (Fuzz.rstrip s); simpl; [|done]. by destruct (Fuzz.isspace c).
Qed.

(** The scorer's normalisation does not see the case of the letters. *)
Lemma full_process_lower s : Fuzz.full_process (Py.lower s) = Fuzz.full_process s.
Proof.
  unfold Fuzz.full_process, Fuzz.default_process, Fuzz.strip.
  by rewrite ascii_only_lower, replace_non_alnum_lower, lstrip_lower, rstrip_lower,
    lower_idem.
Qed.

(** X9. Two rows whose texts are made of ASCII characters and differ only
    in the case of their letters fall under the same block keys, and have
    the same similarity with every row. (On ASCII text [str.lower()] is the
    per-character map, which keeps the length and commutes with taking a
    prefix; beyond ASCII it is neither, and the property is not claimed.) *)
Theorem case_is_ignored row1 row2 leading_chars :
  is_ascii (comparison_text row1) = true →
  is_ascii (comparison_text row2) = true →
  Py.lower (comparison_text row1) = Py.lower (comparison_text row2) →
  (∀ key, in_block leading_chars key (comparison_text row1)
          = in_block leading_chars key (comparison_text row2))
  ∧ (∀ r, calculate_similarity row1 r = calculate_similarity row2 r).
Proof.
  intros _ _ H. split.
  - intros key. unfold in_block, block_key.
    rewrite <- !lower_slice_to, H.
    by rewrite <- (lower_length (comparison_text row1)), H, lower_length.
  - intros r. unfold calculate_similarity, Fuzz.token_set_ratio. cbv zeta.
    by rewrite <- (full_process_lower (comparison_text row1)), H, full_process_lower.
Qed.

Lemma case_is_ignored_witness :
  (∀ key, in_block 3 key (comparison_text [Str "ACME Corp"; Int 7])
          = in_block 3 key (comparison_text [Str "acme CORP"; Int 7]))
  ∧ (∀ r, calculate_similarity [Str "ACME Corp"; Int 7] r
          = calculate_similarity [Str "acme CORP"; Int 7] r).
Proof.
  apply (case_is_ignored [Str "ACME Corp"; Int 7] [Str "acme CORP"; Int 7] 3);
    reflexivity.
Defined.

(** X10. When every word of a row occurs among the words of another row,
    their similarity is 1.0, whatever else the other row holds. *)
Theorem contained_words_similar row1 row2 :
  tokens row1 ≠ ∅ → tokens row1 ⊆ tokens row2 →
  (calculate_similarity row1 row2 == 1)%Q.
Proof.
  unfold tokens. intros Hne Hsub.
  unfold calculate_similarity, Fuzz.token_set_ratio, Fuzz.rapidfuzz_token_set_ratio.
  cbv zeta.
  set (A := list_to_set _ : gset string) in *.
  set (B := list_to_set _ : gset string) in *.
  clearbody A B.
  rewrite decide_False by set_solver.
  rewrite decide_True.
  - by rewrite (FuzzFacts.round_Z 100 : Py.round 100 = 100%Z).
  - split; [|left]; set_solver.
Qed.

Lemma contained_words_similar_witness :
  (calculate_similarity [Str "Acme"] [Str "ACME Corp."; NaN; Str "12 Main St"] == 1)%Q.
Proof.
  apply (contained_words_similar [Str "Acme"] [Str "ACME Corp."; NaN; Str "12 Main St"]).
  - intros H. apply (f_equal size) in H. vm_compute in H. discriminate.
  - apply (bool_decide_unpack _). vm_compute. exact I.
Defined.

(** ** Rows without a word *)

Lemma other_member (c : gset nat) a : 2 ≤ size c → ∃ j, j ∈ c ∧ j ≠ a.
Proof.
  intros Hsz. destruct (decide (c ∖ {[a]} = ∅)) as [He|Hne].
  - assert (Hsub : c ⊆ {[a]}).
    { intros x Hx. destruct (decide (x = a)) as [->|Hxa]; [by apply elem_of_singleton|].
      assert (Hd : x ∈ c ∖ {[a]}).
      { apply elem_of_difference. split; [done|by rewrite elem_of_singleton]. }
      rewrite He in Hd. by apply elem_of_empty in Hd. }
    apply subseteq_size in Hsub. rewrite size_singleton in Hsub. lia.
  - apply set_choose_L in Hne as [j Hj].
    apply elem_of_difference in Hj as [Hj Hja]. rewrite elem_of_singleton in Hja.
    by exists j.
Qed.

Lemma similarity_no_tokens_l row1 row2 :
  tokens row1 = ∅ → calculate_similarity row1 row2 = 0 # 100.
Proof.
  unfold tokens. intros H. unfold calculate_similarity. f_equal.
  apply FuzzFacts.token_set_ratio_no_tokens.
  destruct (Fuzz.split _) as [|t ts]; [done|]. set_solver.
Qed.

(** X11. With a positive threshold, a row whose text holds no word (all
    fields missing, or nothing but punctuation and spaces) is in no
    cluster: it is always reported unique. *)
Theorem wordless_row_unique df threshold leading_chars r c :
  (0 < threshold)%Q → tokens (iloc df r) = ∅ →
  c ∈ find_duplicates df threshold leading_chars → r ∉ c.
Proof.
  intros Ht Hr Hc Hrc.
  pose proof (find_duplicates_around df threshold leading_chars) as Hall.
  destruct (find_duplicates_run_ok df threshold leading_chars) as (_ & _ & Hsz).
  fold (find_duplicates df threshold leading_chars) in Hsz.
  rewrite Forall_forall in Hall, Hsz.
  destruct (Hall c Hc) as (a & Ha & _ & Hsim). destruct (Hsz c Hc) as [H2 _].
  assert (Hzero : ∃ j, Qle_bool threshold
                         (calculate_similarity (iloc df a) (iloc df j)) = true
                       ∧ (a = r ∨ j = r)) .
  { destruct (decide (r = a)) as [->|Hne].
    - destruct (other_member c a H2) as (j & Hj & Hja). exists j. auto.
    - exists r. auto. }
  destruct Hzero as (j & Hle%Qle_bool_iff & [->| ->]).
  - rewrite similarity_no_tokens_l in Hle by done.
    assert (H0 : (0 # 100 == 0)%Q) by reflexivity. lra.
  - unfold calculate_similarity in Hle.
    rewrite FuzzFacts.token_set_ratio_comm in Hle.
    fold (calculate_similarity (iloc df r) (iloc df a)) in Hle.
    rewrite similarity_no_tokens_l in Hle by done.
    assert (H0 : (0 # 100 == 0)%Q) by reflexivity. lra.
Qed.

Lemma wordless_row_unique_witness :
  1 ∉ ({[0; 2]} : gset nat).
Proof.
  apply (wordless_row_unique [[Str "x y"]; [Str "--"]; [Str "x y"]] (1 # 2) 0 1 {[0; 2]}).
  - reflexivity.
  - vm_compute. reflexivity.
  - vm_compute. left.
Defined.
